(** * Occupancy grid generation: ray casting, inverse sensor model, log-odds fusion

    A shallow embedding of the notebook [occupancy_grid_generation.ipynb]:
    [get_ranges] (the range scanner), [inverse_scanner] (the inverse sensor
    model), the log-odds update of the main simulation loop, the motion of
    the robot and the loop as a whole, and the construction of the map.

    Numbers.  The notebook computes in IEEE doubles.  Here a finite double is
    an exact real of [R]: rounding and signed zeros are outside the model.
    The special values that numpy produces without an exception
    ([np.log 0 = -inf], [x / 0 = inf], [inf / inf = nan], and the overflow of
    [np.exp] to [inf] above the largest double) are kept, in the type [xreal]
    used by the fusion arithmetic.  Of the overflows only that of [np.exp]
    is modelled, the one the loop reaches: a log-odds moves by at most
    [ln (7 / 3)] per iteration, and [exp] of it passes the largest double
    after 838 iterations on one side.

    Exceptions.  Python exceptions are values of [exn] in the monad
    [result]. *)

From Stdlib Require Import Reals Lra Lia ZArith.
From stdpp Require Import base decidable option list.

Local Open Scope R_scope.

(** ** Exceptions *)

(** [ValueError] and [IndexError] are the two exceptions numpy raises in the
    modelled code.  [InvalidConfiguration] is the condition named by the
    specification; no statement of the notebook raises it. *)
Inductive exn : Set :=
| ValueError
| IndexError
| InvalidConfiguration.

Inductive result (A : Type) : Type :=
| Ok (a : A)
| Raise (e : exn).
Arguments Ok {A} a.
Arguments Raise {A} e.

#[global] Instance result_ret : MRet result := fun _ a => Ok a.
#[global] Instance result_bind : MBind result := fun _ _ f r =>
  match r with
  | Ok a => f a
  | Raise e => Raise e
  end.

Definition is_ok {A} (r : result A) : Prop := ∃ a, r = Ok a.

(** A [for] loop over the list [l] threading the loop state [s]; an
    exception leaves the loop. *)
Fixpoint for_each {A S : Type} (f : S → A → result S) (s : S) (l : list A)
  : result S :=
  match l with
  | [] => Ok s
  | a :: l' => s' ← f s a; for_each f s' l'
  end.

(** ** Real-number primitives *)

#[global] Instance Rlt_decision : RelDecision Rlt := Rlt_dec.
#[global] Instance Rle_decision : RelDecision Rle := Rle_dec.
#[global] Instance Rgt_decision : RelDecision Rgt := Rgt_dec.
#[global] Instance Rge_decision : RelDecision Rge := Rge_dec.
#[global] Instance Req_decision : EqDecision R := Req_dec_T.

(** Python's [a % b] on floats: the result has the sign of [b]. *)
Definition py_mod (a b : R) : R := a - IZR (Zfloor (a / b)) * b.

(** Python 3's [round] to an integer: ties go to the even neighbour. *)
Definition py_round (v : R) : Z :=
  let f := Zfloor v in
  if decide (v - IZR f < 1 / 2) then f
  else if decide (1 / 2 < v - IZR f) then (f + 1)%Z
  else if Z.even f then f else (f + 1)%Z.

(** [math.atan2 y x], the angle of the point [(x, y)] in [(-PI, PI]];
    [atan2 0 0 = 0] as in the C library. *)
Definition atan2 (y x : R) : R :=
  if decide (0 < x) then atan (y / x)
  else if decide (x < 0) then
    if decide (0 <= y) then atan (y / x) + PI else atan (y / x) - PI
  else if decide (0 < y) then PI / 2
  else if decide (y < 0) then - (PI / 2)
  else 0.

(** [range(lo, hi)] *)
Definition py_range (lo hi : Z) : list Z :=
  (λ k : nat, (lo + Z.of_nat k)%Z) <$> seq 0 (Z.to_nat (hi - lo)).

(** ** Arrays *)

Abbreviation grid A := (list (list A)).

(** [np.zeros((M, N))], [c * np.ones((M, N))] *)
Definition full {A} (M N : nat) (c : A) : grid A := replicate M (replicate N c).

(** The row lengths of a grid; two grids have the same shape when these
    agree. *)
Definition row_lengths {A} (g : grid A) : list nat := length <$> g.

(** [np.shape] of a two-dimensional array.  An array of numpy is
    rectangular; on a ragged nested list [np.shape] has no pair to return,
    and every statement about a map below assumes [rectangular]. *)
Definition np_shape {A} (g : grid A) : nat * nat :=
  (length g, length (default [] (head g))).

(** A two-dimensional numpy array is rectangular. *)
Definition rectangular {A} (g : grid A) : Prop :=
  Forall (λ row, length row = (np_shape g).2) g.

Definition lookup2 {A} (g : grid A) (i j : nat) : option A :=
  row ← g !! i; row !! j.

(** An index of Python: a negative index counts from the end, an index out
    of [-n .. n-1] raises [IndexError]. *)
Definition norm_index (n : nat) (i : Z) : result nat :=
  if decide (0 <= i < Z.of_nat n)%Z then Ok (Z.to_nat i)
  else if decide (- Z.of_nat n <= i < 0)%Z then Ok (Z.to_nat (i + Z.of_nat n))
  else Raise IndexError.

(** [a[i]] *)
Definition getitem {A} (a : list A) (i : Z) : result A :=
  i' ← norm_index (length a) i;
  match a !! i' with
  | Some v => Ok v
  | None => Raise IndexError
  end.

(** [a[i] = v] *)
Definition setitem {A} (a : list A) (i : Z) (v : A) : result (list A) :=
  i' ← norm_index (length a) i; Ok (<[i' := v]> a).

(** [g[i, j]] *)
Definition getitem2 {A} (g : grid A) (i j : Z) : result A :=
  row ← getitem g i; getitem row j.

(** [g[i, j] = v] *)
Definition setitem2 {A} (g : grid A) (i j : Z) (v : A) : result (grid A) :=
  row ← getitem g i;
  row' ← setitem row j v;
  setitem g i row'.

(** ** The range scanner: [get_ranges] *)

Section get_ranges.
Variable true_map : grid R.
Variable X : R * R * R.
Variable meas_phi : list R.
Variable rmax : Z.

Definition map_rows : Z := Z.of_nat (np_shape true_map).1.
Definition map_cols : Z := Z.of_nat (np_shape true_map).2.

Definition pose_x : R := X.1.1.
Definition pose_y : R := X.1.2.
Definition pose_theta : R := X.2.

(** The candidate cell of the beam with bearing [phi] at step [r]. *)
Definition candidate (phi : R) (r : Z) : Z * Z :=
  (py_round (pose_x + IZR r * cos (pose_theta + phi)),
   py_round (pose_y + IZR r * sin (pose_theta + phi))).

(** The test [xi <= 0 or xi >= M-1 or yi <= 0 or yi >= N-1]. *)
Definition off_map (c : Z * Z) : bool :=
  bool_decide (c.1 <= 0)%Z || bool_decide (c.1 >= map_rows - 1)%Z
  || bool_decide (c.2 <= 0)%Z || bool_decide (c.2 >= map_cols - 1)%Z.

(** The inner loop over the steps [rs]: [Some r] when the loop leaves
    through a [break] at step [r], [None] when it runs to its end. *)
Fixpoint march (phi : R) (rs : list Z) : result (option Z) :=
  match rs with
  | [] => Ok None
  | r :: rs' =>
      let c := candidate phi r in
      if off_map c then Ok (Some r)
      else
        v ← getitem2 true_map c.1 c.2;
        if decide (v = 1) then Ok (Some r) else march phi rs'
  end.

(** One iteration of the loop over the bearings. *)
Definition scan_beam (meas_r : list R) (i : nat) : result (list R) :=
  phi ← getitem meas_phi (Z.of_nat i);
  hit ← march phi (py_range 1 (rmax + 1));
  match hit with
  | Some r => setitem meas_r (Z.of_nat i) (IZR r)
  | None => Ok meas_r
  end.

Definition get_ranges : result (list R) :=
  for_each scan_beam
    (replicate (length meas_phi) (IZR rmax))
    (seq 0 (length meas_phi)).

(** The content of the map at a candidate cell. *)
Definition cell_at (c : Z * Z) : option R :=
  lookup2 true_map (Z.to_nat c.1) (Z.to_nat c.2).

(** The two conditions that end the inner loop at step [r]. *)
Definition stops (phi : R) (r : Z) : bool :=
  let c := candidate phi r in
  off_map c || bool_decide (cell_at c = Some 1).

(** The range recorded for the bearing [phi]. *)
Definition beam_range (phi : R) : R :=
  IZR (default rmax (find (stops phi) (py_range 1 (rmax + 1)))).
End get_ranges.

(** The cells strictly inside the outermost ring of a map. *)
Definition interior (true_map : grid R) (i j : nat) : Prop :=
  (0 < i ∧ i + 1 < (np_shape true_map).1 ∧
   0 < j ∧ j + 1 < (np_shape true_map).2)%nat.

(** ** The inverse sensor model: [inverse_scanner] *)

(** [np.argmin]: the first index of the least element; [best] is the least
    element seen so far, at index [bi], and [i] the index of the head of
    [l]. *)
Fixpoint argmin_from (best : R) (bi i : nat) (l : list R) : nat :=
  match l with
  | [] => bi
  | v :: l' =>
      if decide (v < best) then argmin_from v i (S i) l'
      else argmin_from best bi (S i) l'
  end.

Definition np_argmin (l : list R) : result nat :=
  match l with
  | [] => Raise ValueError
  | v :: l' => Ok (argmin_from v 0 1 l')
  end.

Definition p_unknown : R := 5 / 10.
Definition p_occupied : R := 7 / 10.
Definition p_free : R := 3 / 10.

Section inverse_scanner.
(** [M] and [N] are the notebook's module-level variables: the function
    reads them in [np.zeros((M, N))] although they are not among its
    parameters. *)
Variables M N : nat.
Variables num_rows num_cols : nat.
Variables x y theta : R.
Variables meas_phi meas_r : list R.
Variables rmax alpha beta : R.

(** The branches of the classification, for a cell at range [r] and
    relative bearing [phi] whose nearest beam has bearing [pk] and
    measured range [rk]: [Some v] when a branch assigns [v] to the cell,
    [None] when no branch is taken and the cell is left as it is. *)
Definition classify (r phi pk rk : R) : option R :=
  if bool_decide (r > Rmin rmax (rk + alpha / 2))
     || bool_decide (Rabs (phi - pk) > beta / 2)
  then Some p_unknown
  else if bool_decide (rk < rmax) && bool_decide (Rabs (r - rk) < alpha / 2)
  then Some p_occupied
  else if bool_decide (r < rk)
  then Some p_free
  else None.

Definition cell_range (i j : nat) : R :=
  sqrt ((INR i - x) ^ 2 + (INR j - y) ^ 2).

Definition cell_bearing (i j : nat) : R :=
  py_mod (atan2 (INR j - y) (INR i - x) - theta + PI) (2 * PI) - PI.

(** What the body of the inner loop decides for the cell [(i, j)].
    [meas_phi[k]] cannot raise, [k] being an index returned by
    [np.argmin] over an array as long as [meas_phi]; it is read here
    before the tests. *)
Definition cell_decision (i j : nat) : result (option R) :=
  let r := cell_range i j in
  let phi := cell_bearing i j in
  k ← np_argmin ((λ b, Rabs (phi - b)) <$> meas_phi);
  rk ← getitem meas_r (Z.of_nat k);
  pk ← getitem meas_phi (Z.of_nat k);
  Ok (classify r phi pk rk).

(** The body of the inner loop. *)
Definition scan_cell (i : nat) (m : grid R) (j : nat) : result (grid R) :=
  d ← cell_decision i j;
  match d with
  | Some v => setitem2 m (Z.of_nat i) (Z.of_nat j) v
  | None => Ok m
  end.

Definition scan_row (m : grid R) (i : nat) : result (grid R) :=
  for_each (scan_cell i) m (seq 0 num_cols).

Definition inverse_scanner : result (grid R) :=
  for_each scan_row (full M N 0) (seq 0 num_rows).

(** The value the loop gives to cell [(i, j)]: the one a branch assigns,
    or the initial [0] when no branch is taken. *)
Definition cell_result (i j : nat) (v : R) : Prop :=
  ∃ d, cell_decision i j = Ok d ∧ v = default 0 d.

(** The grid [m] after the cells of [W] have been visited. *)
Definition visited (W : nat → nat → Prop) (m : grid R) : Prop :=
  row_lengths m = replicate M N ∧
  ∀ i j v, lookup2 m i j = Some v →
    (W i j → cell_result i j v) ∧ (¬ W i j → v = 0).
End inverse_scanner.

(** ** Log-odds fusion *)

(** A double without rounding: a real, an infinity or a NaN. *)
Inductive xreal : Type :=
| Fin (r : R)
| PInf
| NInf
| NaN.

Definition xneg (a : xreal) : xreal :=
  match a with
  | Fin r => Fin (- r)
  | PInf => NInf
  | NInf => PInf
  | NaN => NaN
  end.

Definition xadd (a b : xreal) : xreal :=
  match a, b with
  | NaN, _ | _, NaN => NaN
  | Fin r, Fin s => Fin (r + s)
  | PInf, NInf | NInf, PInf => NaN
  | PInf, _ | _, PInf => PInf
  | NInf, _ | _, NInf => NInf
  end.

Definition xsub (a b : xreal) : xreal := xadd a (xneg b).

(** Division; a zero divisor is taken as [+0]. *)
Definition xdiv (a b : xreal) : xreal :=
  match a, b with
  | NaN, _ | _, NaN => NaN
  | Fin r, Fin s =>
      if decide (s = 0) then
        if decide (0 < r) then PInf else if decide (r < 0) then NInf else NaN
      else Fin (r / s)
  | Fin _, _ => Fin 0
  | PInf, Fin s => if decide (s < 0) then NInf else PInf
  | NInf, Fin s => if decide (s < 0) then PInf else NInf
  | _, _ => NaN
  end.

(** [np.log]: [-inf] at [0] and [nan] below, with a warning only. *)
Definition xlog (a : xreal) : xreal :=
  match a with
  | Fin r => if decide (0 < r) then Fin (ln r) else if decide (r = 0) then NInf else NaN
  | PInf => PInf
  | NInf | NaN => NaN
  end.

(** The largest double, [(2 - 2^-52) * 2^1023]. *)
Definition dbl_max : R := (2 - / 2 ^ 52) * 2 ^ 1023.

(** [np.exp]: a result above the largest double overflows to [inf], with a
    warning only (this happens above [ln dbl_max], about 709.78). *)
Definition xexp (a : xreal) : xreal :=
  match a with
  | Fin r => if decide (dbl_max < exp r) then PInf else Fin (exp r)
  | PInf => PInf
  | NInf => Fin 0
  | NaN => NaN
  end.

(** An elementwise operation with a scalar operand. *)
Definition ew1 {A B} (f : A → B) (g : grid A) : grid B :=
  (λ row : list A, f <$> row) <$> g.

(** An elementwise operation of two arrays.  numpy raises [ValueError] when
    the shapes cannot be combined; the broadcasting of an axis of length one
    is not modelled, every array of the notebook having the shape
    [(M, N)]. *)
Definition ew2 {A B C} (f : A → B → C) (g : grid A) (h : grid B)
  : result (grid C) :=
  if decide (row_lengths g = row_lengths h)
  then Ok (zip_with (zip_with f) g h)
  else Raise ValueError.

(** The two assignments at the end of the loop body:
    [L = np.log(np.divide(invmod, np.subtract(1, invmod))) + L - L0] and
    [m = np.divide(np.exp(L), 1 + np.exp(L))]. *)
Definition log_odds_update (invmod L L0 : grid xreal)
  : result (grid xreal * grid xreal) :=
  odds ← ew2 xdiv invmod (ew1 (xsub (Fin 1)) invmod);
  s ← ew2 xadd (ew1 xlog odds) L;
  L' ← ew2 xsub s L0;
  m' ← ew2 xdiv (ew1 xexp L') (ew1 (xadd (Fin 1)) (ew1 xexp L'));
  Ok (L', m').

(** The update at one cell, on the values of numpy. *)
Definition cell_log_odds (p l l0 : xreal) : xreal :=
  xsub (xadd (xlog (xdiv p (xsub (Fin 1) p))) l) l0.

Definition cell_belief (l : xreal) : xreal :=
  xdiv (xexp l) (xadd (Fin 1) (xexp l)).

(** The logistic function [1 / (1 + exp (- l))] on the values of numpy. *)
Definition sigmoid (l : xreal) : xreal :=
  xdiv (Fin 1) (xadd (Fin 1) (xexp (xneg l))).

(** The log-odds that the loop can reach: a real or [-inf]. *)
Definition low_or_finite (l : xreal) : Prop :=
  match l with
  | Fin _ | NInf => True
  | PInf | NaN => False
  end.

(** The log-odds at which neither [np.exp(L)] nor [np.exp(-L)] overflows:
    [-inf], and the reals of magnitude at most [ln dbl_max]. *)
Definition in_exp_range (l : xreal) : Prop :=
  match l with
  | Fin r => exp r <= dbl_max ∧ exp (- r) <= dbl_max
  | NInf => True
  | PInf | NaN => False
  end.

(** ** The simulation loop *)

Record sim_state : Type := SimState {
  st_L : grid xreal;   (* the log-odds grid [L] *)
  st_m : grid xreal    (* the belief grid [m] *)
}.

Section simulation.
Variables M N : nat.
Variable true_map : grid R.
Variable meas_phi : list R.
Variable rmax : Z.
Variables alpha beta : R.

(** [m = np.multiply(0.5, np.ones((M, N)))] *)
Definition m_init : grid xreal := full M N (Fin (5 / 10)).

(** [L0 = np.log(np.divide(m, np.subtract(1, m)))] *)
Definition L0 : result (grid xreal) :=
  odds ← ew2 xdiv m_init (ew1 (xsub (Fin 1)) m_init);
  Ok (ew1 xlog odds).

Definition sim_init : result sim_state :=
  l0 ← L0; Ok (SimState l0 m_init).

(** The sensing and fusion part of one iteration of the main loop, at the
    pose [X] that the motion part has computed. *)
Definition sim_step (st : sim_state) (X : R * R * R) : result sim_state :=
  meas_r ← get_ranges true_map X meas_phi rmax;
  invmod ← inverse_scanner M N M N X.1.1 X.1.2 X.2
              meas_phi meas_r (IZR rmax) alpha beta;
  l0 ← L0;
  '(L', m') ← log_odds_update (ew1 Fin invmod) (st_L st) l0;
  Ok (SimState L' m').

(** The loop over a sequence of poses. *)
Definition sim_run (poses : list (R * R * R)) : result sim_state :=
  st ← sim_init; for_each sim_step st poses.


(** What every iteration keeps: both grids have the shape (M, N), every
    log-odds is a real or [-inf], and the belief of a cell is the value that
    [np.divide(np.exp(L), 1 + np.exp(L))] computes from its log-odds. *)
Definition fusion_inv (st : sim_state) : Prop :=
  row_lengths (st_L st) = replicate M N ∧
  row_lengths (st_m st) = replicate M N ∧
  ∀ i j l, lookup2 (st_L st) i j = Some l →
    low_or_finite l ∧ lookup2 (st_m st) i j = Some (cell_belief l).
End simulation.

(** ** The motion of the robot and the main loop *)

(** [u = np.array([[3, 0, -3, 0], [0, 3, 0, -3]])] *)
Definition u_moves : grid R := [[3; 0; -3; 0]; [0; 3; 0; -3]].

(** The state of the notebook between two iterations: the columns of [x]
    written so far, the index [u_i], the grids [L] and [m], and the three
    archives [meas_rs], [invmods] and [ms]. *)
Record loop_state : Type := LoopState {
  ls_x : list (R * R * R);
  ls_ui : Z;
  ls_sim : sim_state;
  ls_meas_rs : list (list R);
  ls_invmods : list (grid R);
  ls_ms : list (grid xreal)
}.

Section main_loop.
Variables M N : nat.
Variable true_map : grid R.
Variable meas_phi : list R.
Variable rmax : Z.
Variables alpha beta : R.

(** The test that keeps the robot still: the move would leave the inside of
    the map or land on an obstacle.  The map is read only when the four
    comparisons fail ([or] does not evaluate further). *)
Definition move_blocked (mx my : R) : result bool :=
  if bool_decide (mx >= INR M - 1) || bool_decide (my >= INR N - 1)
     || bool_decide (mx <= 0) || bool_decide (my <= 0)
  then Ok true
  else
    v ← getitem2 true_map (py_round mx) (py_round my);
    Ok (bool_decide (v = 1)).

(** The motion part of one iteration, from the pose [X] = [x[:, t-1]] with
    the rotation command [wt] = [w[t]]: the new pose [x[:, t]] and the new
    [u_i]. *)
Definition move_robot (X : R * R * R) (u_i : Z) (wt : R)
  : result ((R * R * R) * Z) :=
  dx ← getitem2 u_moves 0 u_i;
  dy ← getitem2 u_moves 1 u_i;
  let mx := X.1.1 + dx in
  let my := X.1.2 + dy in
  blocked ← move_blocked mx my;
  let theta' := py_mod (X.2 + wt) (2 * PI) in
  if (blocked : bool)
  then Ok ((X.1.1, X.1.2, theta'), ((u_i + 1) `mod` 4)%Z)
  else Ok ((mx, my, theta'), u_i).

(** One iteration of the main loop, for the time step [t]. *)
Definition loop_body (w : list R) (st : loop_state) (t : Z)
  : result loop_state :=
  X ← getitem (ls_x st) (t - 1);
  wt ← getitem w t;
  '(X', u_i') ← move_robot X (ls_ui st) wt;
  meas_r ← get_ranges true_map X' meas_phi rmax;
  invmod ← inverse_scanner M N M N X'.1.1 X'.1.2 X'.2
              meas_phi meas_r (IZR rmax) alpha beta;
  l0 ← L0 M N;
  '(L', m') ← log_odds_update (ew1 Fin invmod) (st_L (ls_sim st)) l0;
  Ok (LoopState (ls_x st ++ [X']) u_i' (SimState L' m')
        (ls_meas_rs st ++ [meas_r]) (ls_invmods st ++ [invmod])
        (ls_ms st ++ [m'])).

(** The initialisation, the first scan and the loop, from the initial pose
    [x_0] and with the rotation commands [w]; [len(time_steps)] is the
    length of [w].  [x = np.zeros((3, len(time_steps)))] has one column per
    time step and [x[:, 0] = x_0] raises IndexError when there is none; the
    state then holds the columns written so far. *)
Definition main_loop (x_0 : R * R * R) (w : list R) : result loop_state :=
  l0 ← L0 M N;
  x ← setitem (replicate (length w) (0, 0, 0)) 0 x_0;
  meas_r ← get_ranges true_map x_0 meas_phi rmax;
  invmod ← inverse_scanner M N M N x_0.1.1 x_0.1.2 x_0.2
              meas_phi meas_r (IZR rmax) alpha beta;
  for_each (loop_body w)
    (LoopState (take 1 x) 1 (SimState l0 (m_init M N)) [meas_r] [invmod]
       [m_init M N])
    (py_range 1 (Z.of_nat (length w))).
End main_loop.

(** The robot is strictly inside the map. *)
Definition inside (M N : nat) (X : R * R * R) : Prop :=
  0 < X.1.1 < INR M - 1 ∧ 0 < X.1.2 < INR N - 1.

(** What holds between two iterations of the main loop, [k] of them being
    done: the archives have one entry per time step, [u_i] is an index of
    [u], the grids satisfy the invariant of the fusion, the robot has stayed
    inside the map if it started there, and [L], [m] are what the fusion
    alone computes from the poses visited. *)
Definition loop_inv (M N : nat) (true_map : grid R) (meas_phi : list R)
    (rmax : Z) (alpha beta : R) (x_0 : R * R * R)
    (k : nat) (st : loop_state) : Prop :=
  length (ls_x st) = S k ∧
  length (ls_meas_rs st) = S k ∧
  length (ls_invmods st) = S k ∧
  length (ls_ms st) = S k ∧
  (0 <= ls_ui st < 4)%Z ∧
  fusion_inv M N (ls_sim st) ∧
  (inside M N x_0 → Forall (inside M N) (ls_x st)) ∧
  sim_run M N true_map meas_phi rmax alpha beta (tail (ls_x st))
    = Ok (ls_sim st) ∧
  last (ls_ms st) = Some (st_m (ls_sim st)).

(** ** The construction of the map *)

(** The slice assignment [g[r0:r1, c0:c1] = v] with bounds that are not
    negative: a slice is clipped to the array, and empty when its upper
    bound is not above its lower bound. *)
Definition assign_block {A} (r0 r1 c0 c1 : nat) (v : A) (g : grid A)
  : grid A :=
  imap (λ i row,
          if decide (r0 <= i < r1)%nat
          then imap (λ j a, if decide (c0 <= j < c1)%nat then v else a) row
          else row) g.

(** The map of the notebook: M = 50, N = 60 and five blocks of
    obstacles. *)
Definition notebook_map : grid R :=
  assign_block 40 50 5 25 1
    (assign_block 20 30 25 29 1
       (assign_block 3 6 40 60 1
          (assign_block 30 35 40 45 1
             (assign_block 0 10 0 10 1 (full 50 60 0))))).

(** ** Two small maps *)

(** A 10 by 10 map without obstacles, and the one whose only obstacle is
    the cell [(5, 5)]. *)
Definition free_map : grid R := full 10 10 0.
Definition obstacle_map : grid R :=
  <[5%nat := <[5%nat := 1]> (replicate 10 0)]> free_map.

(** * Properties *)

(** ** The exception monad and loops *)

Lemma bind_Ok {A B} (f : A → result B) (r : result A) (b : B) :
  r ≫= f = Ok b ↔ ∃ a, r = Ok a ∧ f a = Ok b.
Proof.
  destruct r as [a|e]; simpl; split.
  - intros H. exists a. done.
  - intros (a' & Ha & H). by simplify_eq.
  - done.
  - by intros (a' & Ha & H).
Qed.

Lemma bind_Raise {A B} (f : A → result B) (r : result A) (e : exn) :
  r = Raise e → r ≫= f = Raise e.
Proof. by intros ->. Qed.

Ltac inv_bind H :=
  repeat match type of H with
  | _ ≫= _ = Ok _ =>
      let a := fresh "a" in
      let Ha := fresh "Ha" in
      apply bind_Ok in H as (a & Ha & H)
  end.

(** A loop invariant [I], indexed by the elements already visited. *)
Lemma for_each_inv {A S} (f : S → A → result S) (I : list A → S → Prop)
    (l : list A) (s0 s : S) :
  I [] s0 →
  (∀ done a rest t t',
     l = done ++ a :: rest → I done t → f t a = Ok t' → I (done ++ [a]) t') →
  for_each f s0 l = Ok s →
  I l s.
Proof.
  intros H0 Hstep.
  cut (∀ rest done t, l = done ++ rest → I done t →
         for_each f t rest = Ok s → I l s).
  { intros Hgen. by apply (Hgen l [] s0). }
  induction rest as [|a rest IH]; intros done t Hl Hd Hrun; simpl in Hrun.
  - simplify_eq. by rewrite app_nil_r.
  - apply bind_Ok in Hrun as (t' & Hf & Hrun).
    apply (IH (done ++ [a]) t'); [by rewrite <- app_assoc| |done].
    by eapply Hstep.
Qed.

(** The same with termination without an exception. *)
Lemma for_each_ok {A S} (f : S → A → result S) (I : list A → S → Prop)
    (l : list A) (s0 : S) :
  I [] s0 →
  (∀ done a rest t,
     l = done ++ a :: rest → I done t →
     ∃ t', f t a = Ok t' ∧ I (done ++ [a]) t') →
  ∃ s, for_each f s0 l = Ok s ∧ I l s.
Proof.
  intros H0 Hstep.
  cut (∀ rest done t, l = done ++ rest → I done t →
         ∃ s, for_each f t rest = Ok s ∧ I l s).
  { intros Hgen. by apply (Hgen l [] s0). }
  induction rest as [|a rest IH]; intros done t Hl Hd; simpl.
  - exists t. split; [done|]. subst l. by rewrite app_nil_r.
  - destruct (Hstep done a rest t Hl Hd) as (t' & Hf & Hd').
    rewrite Hf. simpl.
    apply (IH (done ++ [a]) t'); [by rewrite <- app_assoc|done].
Qed.

Lemma seq_split_inv (n : nat) (done : list nat) (a : nat) (rest : list nat) :
  seq 0 n = done ++ a :: rest →
  a = length done ∧ done = seq 0 a ∧ (a < n)%nat.
Proof.
  intros H.
  assert (Hlen : length (seq 0 n) = length (done ++ a :: rest)) by by rewrite H.
  rewrite length_seq, length_app in Hlen. simpl in Hlen.
  assert (Ha : seq 0 n !! length done = Some a).
  { rewrite H. by rewrite list_lookup_middle. }
  apply lookup_seq in Ha as [Ha _]. simpl in Ha. subst a.
  split; [done|]. split; [|lia].
  assert (Ht : take (length done) (seq 0 n) = done).
  { rewrite H. by rewrite take_app_length. }
  rewrite <- Ht at 1. rewrite take_seq. f_equal. lia.
Qed.

(** ** Indexing *)

Lemma norm_index_nat (n i : nat) :
  (i < n)%nat → norm_index n (Z.of_nat i) = Ok i.
Proof.
  intros Hi. unfold norm_index.
  rewrite decide_True by lia. by rewrite Nat2Z.id.
Qed.

Lemma norm_index_nat_ge (n i : nat) :
  (n <= i)%nat → norm_index n (Z.of_nat i) = Raise IndexError.
Proof.
  intros Hi. unfold norm_index.
  rewrite decide_False by lia. by rewrite decide_False by lia.
Qed.

Lemma getitem_nat {A} (a : list A) (i : nat) :
  getitem a (Z.of_nat i) =
    match a !! i with Some v => Ok v | None => Raise IndexError end.
Proof.
  unfold getitem. destruct (a !! i) as [v|] eqn:Hv.
  - rewrite norm_index_nat by by eapply lookup_lt_Some.
    simpl. by rewrite Hv.
  - rewrite norm_index_nat_ge by by apply lookup_ge_None. done.
Qed.

Lemma getitem_nonneg {A} (a : list A) (i : Z) :
  (0 <= i)%Z →
  getitem a i =
    match a !! Z.to_nat i with Some v => Ok v | None => Raise IndexError end.
Proof. intros Hi. rewrite <- getitem_nat. by rewrite Z2Nat.id. Qed.

Lemma setitem_nat {A} (a : list A) (i : nat) (v : A) :
  setitem a (Z.of_nat i) v =
    if decide (i < length a)%nat then Ok (<[i := v]> a) else Raise IndexError.
Proof.
  unfold setitem. case_decide.
  - by rewrite norm_index_nat.
  - by rewrite norm_index_nat_ge by lia.
Qed.

Lemma setitem2_nat {A} (g : grid A) (i j : nat) (v : A) :
  setitem2 g (Z.of_nat i) (Z.of_nat j) v =
    match g !! i with
    | Some row =>
        if decide (j < length row)%nat
        then Ok (<[i := <[j := v]> row]> g)
        else Raise IndexError
    | None => Raise IndexError
    end.
Proof.
  unfold setitem2. rewrite getitem_nat.
  destruct (g !! i) as [row|] eqn:Hrow; [|done]. simpl.
  rewrite setitem_nat. case_decide; [|done]. simpl.
  rewrite setitem_nat. rewrite decide_True; [done|].
  by eapply lookup_lt_Some.
Qed.

Lemma lookup2_insert2 {A} (g : grid A) (i j : nat) (row : list A) (v : A)
    (i' j' : nat) :
  g !! i = Some row → (j < length row)%nat →
  lookup2 (<[i := <[j := v]> row]> g) i' j' =
    if decide (i' = i ∧ j' = j) then Some v else lookup2 g i' j'.
Proof.
  intros Hrow Hj. unfold lookup2.
  destruct (decide (i' = i)) as [->|Hi].
  - rewrite list_lookup_insert_eq by by eapply lookup_lt_Some.
    simpl. rewrite Hrow. simpl.
    destruct (decide (j' = j)) as [->|Hj'].
    + rewrite list_lookup_insert_eq by done. by rewrite decide_True.
    + rewrite list_lookup_insert_ne by done. by rewrite decide_False by tauto.
  - rewrite list_lookup_insert_ne by done. by rewrite decide_False by tauto.
Qed.

Lemma row_lengths_insert2 {A} (g : grid A) (i j : nat) (row : list A) (v : A) :
  g !! i = Some row →
  row_lengths (<[i := <[j := v]> row]> g) = row_lengths g.
Proof.
  intros Hrow. unfold row_lengths.
  rewrite list_fmap_insert, length_insert.
  apply list_insert_id. by rewrite list_lookup_fmap, Hrow.
Qed.

Lemma row_lengths_full {A} (M N : nat) (c : A) :
  row_lengths (full M N c) = replicate M N.
Proof.
  unfold row_lengths, full. rewrite fmap_replicate. by rewrite length_replicate.
Qed.

Lemma lookup2_full {A} (M N : nat) (c : A) (i j : nat) :
  lookup2 (full M N c) i j =
    if decide (i < M ∧ j < N)%nat then Some c else None.
Proof.
  unfold lookup2, full.
  destruct (decide (i < M)%nat) as [Hi|Hi].
  - rewrite lookup_replicate_2 by done. simpl.
    destruct (decide (j < N)%nat) as [Hj|Hj].
    + rewrite lookup_replicate_2 by done. by rewrite decide_True.
    + rewrite decide_False by tauto. apply lookup_replicate_None. lia.
  - rewrite decide_False by tauto.
    replace (replicate M (replicate N c) !! i) with (@None (list A)); [done|].
    symmetry. apply lookup_replicate_None. lia.
Qed.

(** In a grid of shape [M] by [N], the cells are those of [0..M) x [0..N). *)
Lemma lookup2_is_Some {A} (g : grid A) (M N i j : nat) :
  row_lengths g = replicate M N →
  is_Some (lookup2 g i j) ↔ (i < M ∧ j < N)%nat.
Proof.
  intros Hs. unfold lookup2, row_lengths in *.
  assert (Hrow : ∀ row, g !! i = Some row → (i < M)%nat ∧ length row = N).
  { intros row Hrow.
    assert (H : (length <$> g) !! i = Some (length row))
      by by rewrite list_lookup_fmap, Hrow.
    rewrite Hs in H. apply lookup_replicate in H. tauto. }
  destruct (g !! i) as [row|] eqn:Hg; simpl.
  - destruct (Hrow row eq_refl) as [Hi Hl].
    rewrite lookup_lt_is_Some, Hl. tauto.
  - split; [by intros [? ?]|]. intros [Hi _].
    apply lookup_ge_None in Hg.
    assert (Hlen : length (length <$> g) = length (replicate M N))
      by by rewrite Hs.
    rewrite length_fmap, length_replicate in Hlen. lia.
Qed.

(** ** The inverse sensor model *)

Lemma argmin_from_lt (l : list R) (best : R) (bi i : nat) :
  (bi < i)%nat → (argmin_from best bi i l < i + length l)%nat.
Proof.
  revert best bi i. induction l as [|v l IH]; intros best bi i Hb; simpl.
  - lia.
  - case_decide.
    + specialize (IH v i (S i)). lia.
    + specialize (IH best bi (S i)). lia.
Qed.

Lemma np_argmin_lt (l : list R) (k : nat) :
  np_argmin l = Ok k → (k < length l)%nat.
Proof.
  destruct l as [|v l]; simpl; [done|].
  intros [= <-]. pose proof (argmin_from_lt l v 0 1). lia.
Qed.

Lemma np_argmin_ok (l : list R) : l ≠ [] → is_ok (np_argmin l).
Proof. destruct l; [done|]. intros _. by eexists. Qed.

Lemma classify_values (rmax alpha beta r phi pk rk v : R) :
  classify rmax alpha beta r phi pk rk = Some v →
  v = p_free ∨ v = p_unknown ∨ v = p_occupied.
Proof.
  unfold classify.
  repeat (case_match; [intros [= <-]; tauto|]). done.
Qed.

Section inverse_scanner_facts.
Variables M N : nat.
Variables num_rows num_cols : nat.
Variables x y theta : R.
Variables meas_phi meas_r : list R.
Variables rmax alpha beta : R.

#[local] Abbreviation decision :=
  (cell_decision x y theta meas_phi meas_r rmax alpha beta).
#[local] Abbreviation step :=
  (scan_cell x y theta meas_phi meas_r rmax alpha beta).
#[local] Abbreviation row_step :=
  (scan_row num_cols x y theta meas_phi meas_r rmax alpha beta).
#[local] Abbreviation cell_result :=
  (cell_result x y theta meas_phi meas_r rmax alpha beta).
#[local] Abbreviation visited :=
  (visited M N x y theta meas_phi meas_r rmax alpha beta).

Lemma visited_iff (W W' : nat → nat → Prop) (m : grid R) :
  (∀ i j, W i j ↔ W' i j) → visited W m → visited W' m.
Proof.
  intros HW [Hs Hc]. split; [done|]. intros i j v Hv.
  destruct (Hc i j v Hv) as [H1 H2]. rewrite <- HW. tauto.
Qed.

Lemma visited_init : visited (λ _ _, False) (full M N 0).
Proof.
  split; [apply row_lengths_full|]. intros i j v.
  rewrite lookup2_full. case_decide; [|done]. intros [= <-]. tauto.
Qed.

Lemma scan_cell_visited (W : nat → nat → Prop) (m m' : grid R) (i j : nat) :
  visited W m → ¬ W i j → step i m j = Ok m' →
  visited (λ i' j', W i' j' ∨ (i' = i ∧ j' = j)) m'.
Proof.
  intros [Hs Hc] HW Hstep. unfold scan_cell in Hstep.
  apply bind_Ok in Hstep as (d & Hd & Hstep).
  destruct d as [v|].
  - rewrite setitem2_nat in Hstep.
    destruct (m !! i) as [row|] eqn:Hrow; [|done].
    case_decide as Hj; [|done]. injection Hstep as <-.
    split; [by rewrite row_lengths_insert2|].
    intros i' j' v'. rewrite lookup2_insert2 by done.
    case_decide as Hij.
    + destruct Hij as [-> ->]. intros [= <-].
      split; [|tauto]. intros _. by exists (Some v).
    + intros Hv'. destruct (Hc i' j' v' Hv') as [H1 H2]. split; tauto.
  - injection Hstep as <-. split; [done|].
    intros i' j' v' Hv'. destruct (Hc i' j' v' Hv') as [H1 H2].
    split; [|tauto]. intros [HW'|[-> ->]]; [tauto|].
    exists None. split; [done|]. simpl. tauto.
Qed.

Lemma scan_row_visited (m m' : grid R) (i : nat) :
  visited (λ i' j', (i' < i ∧ j' < num_cols)%nat) m →
  row_step m i = Ok m' →
  visited (λ i' j', (i' < S i ∧ j' < num_cols)%nat) m'.
Proof.
  intros Hm Hrun. unfold scan_row in Hrun.
  apply (for_each_inv _
    (λ done t, visited (λ i' j',
       (i' < i ∧ j' < num_cols)%nat ∨ (i' = i ∧ j' < length done)%nat) t))
    in Hrun.
  - eapply visited_iff; [|exact Hrun]. intros i' j'. simpl.
    rewrite length_seq. lia.
  - eapply visited_iff; [|exact Hm]. intros i' j'. simpl. lia.
  - intros done j rest t t' Hsplit Ht Hstep.
    apply seq_split_inv in Hsplit as (-> & _ & Hlt).
    eapply visited_iff; [|eapply (scan_cell_visited _ t t' i (length done));
                          [exact Ht| |exact Hstep] ].
    + intros i' j'. simpl. rewrite length_app. simpl. lia.
    + simpl. lia.
Qed.

(** The grid that [inverse_scanner] returns: its shape is that of the
    allocation, a visited cell has the value the loop body decides, every
    other one the initial [0]. *)
Lemma inverse_scanner_result (m : grid R) :
  inverse_scanner M N num_rows num_cols x y theta
    meas_phi meas_r rmax alpha beta = Ok m →
  visited (λ i j, (i < num_rows ∧ j < num_cols)%nat) m.
Proof.
  intros Hrun. unfold inverse_scanner in Hrun.
  apply (for_each_inv _
    (λ done t, visited (λ i' j', (i' < length done ∧ j' < num_cols)%nat) t))
    in Hrun.
  - eapply visited_iff; [|exact Hrun]. intros i j. simpl.
    by rewrite length_seq.
  - eapply visited_iff; [|exact visited_init]. intros i j. simpl. lia.
  - intros done i rest t t' Hsplit Ht Hstep.
    apply seq_split_inv in Hsplit as (-> & _ & Hlt).
    eapply visited_iff; [|eapply (scan_row_visited t t' (length done));
                          [exact Ht|exact Hstep] ].
    intros i' j'. simpl. rewrite length_app. simpl. lia.
Qed.

Lemma cell_decision_ok (i j : nat) :
  meas_phi ≠ [] → (length meas_phi <= length meas_r)%nat →
  is_ok (decision i j).
Proof.
  intros Hne Hlen. unfold cell_decision.
  destruct (np_argmin_ok
    ((λ b, Rabs (cell_bearing x y theta i j - b)) <$> meas_phi))
    as [k Hk].
  { by destruct meas_phi. }
  rewrite Hk. simpl. apply np_argmin_lt in Hk. rewrite length_fmap in Hk.
  rewrite !getitem_nat.
  destruct (lookup_lt_is_Some_2 meas_r k) as [rk ->]; [lia|]. simpl.
  destruct (lookup_lt_is_Some_2 meas_phi k) as [pk ->]; [lia|]. simpl.
  by eexists.
Qed.

Lemma cell_decision_values (i j : nat) (d : option R) :
  decision i j = Ok d →
  default 0 d = 0 ∨ default 0 d = p_free ∨ default 0 d = p_unknown
  ∨ default 0 d = p_occupied.
Proof.
  unfold cell_decision. intros H. inv_bind H.
  injection H as <-.
  destruct (classify _ _ _ _ _ _ _) as [v|] eqn:Hc; simpl; [|tauto].
  apply classify_values in Hc. tauto.
Qed.

(** Every cell of the returned grid holds one of four values. *)
Lemma inverse_scanner_values (m : grid R) (i j : nat) (v : R) :
  inverse_scanner M N num_rows num_cols x y theta
    meas_phi meas_r rmax alpha beta = Ok m →
  lookup2 m i j = Some v →
  v = 0 ∨ v = p_free ∨ v = p_unknown ∨ v = p_occupied.
Proof.
  intros Hrun Hv. apply inverse_scanner_result in Hrun as [_ Hc].
  destruct (Hc i j v Hv) as [H1 H2].
  destruct (decide (i < num_rows ∧ j < num_cols)%nat) as [Hij|Hij].
  - destruct (H1 Hij) as (d & Hd & ->). by eapply cell_decision_values.
  - left. tauto.
Qed.

Lemma scan_cell_ok (m : grid R) (i j : nat) :
  meas_phi ≠ [] → (length meas_phi <= length meas_r)%nat →
  row_lengths m = replicate M N → (i < M)%nat → (j < N)%nat →
  ∃ m', step i m j = Ok m' ∧ row_lengths m' = replicate M N.
Proof.
  intros Hne Hlen Hs Hi Hj. unfold scan_cell.
  destruct (cell_decision_ok i j Hne Hlen) as [d Hd].
  rewrite Hd. simpl.
  destruct d as [v|]; [|by eexists].
  rewrite setitem2_nat.
  destruct (proj2 (lookup2_is_Some m M N i j Hs) (conj Hi Hj)) as [c Hc].
  unfold lookup2 in Hc. destruct (m !! i) as [row|] eqn:Hrow; [|done].
  simpl in Hc. apply lookup_lt_Some in Hc.
  rewrite decide_True by done. eexists. split; [done|].
  by rewrite row_lengths_insert2.
Qed.

(** The call returns a grid when the loops stay inside the allocated
    array and every bearing has its range. *)
Lemma inverse_scanner_ok :
  meas_phi ≠ [] → (length meas_phi <= length meas_r)%nat →
  (num_rows <= M)%nat → (num_cols <= N)%nat →
  is_ok (inverse_scanner M N num_rows num_cols x y theta
           meas_phi meas_r rmax alpha beta).
Proof.
  intros Hne Hlen HM HN. unfold inverse_scanner.
  destruct (for_each_ok row_step
    (λ _ t, row_lengths t = replicate M N) (seq 0 num_rows) (full M N 0))
    as (m & Hm & _); [apply row_lengths_full| |by exists m].
  intros done i rest t Hsplit Ht.
  apply seq_split_inv in Hsplit as (-> & _ & Hlt).
  unfold scan_row.
  destruct (for_each_ok (step (length done))
    (λ _ t, row_lengths t = replicate M N) (seq 0 num_cols) t)
    as (m' & Hm' & Hs'); [done| |by exists m'].
  intros done' j rest' t' Hsplit' Ht'.
  apply seq_split_inv in Hsplit' as (-> & _ & Hlt').
  apply scan_cell_ok; [done|done|done|lia|lia].
Qed.
End inverse_scanner_facts.

(** ** The real-number primitives at the values used below *)

Lemma py_round_IZR (z : Z) : py_round (IZR z) = z.
Proof.
  unfold py_round. rewrite ZfloorZ. rewrite decide_True; [done|lra].
Qed.

Lemma py_mod_small (a b : R) : 0 <= a < b → py_mod a b = a.
Proof.
  intros [Ha Hb]. unfold py_mod.
  rewrite (Zfloor_eq 0 (a / b)); [lra|].
  assert (Hpos : 0 < b) by lra.
  assert (Hq : a / b * b = a) by (field; lra).
  assert (Hinv : 0 < / b) by by apply Rinv_0_lt_compat.
  split.
  - unfold Rdiv. apply Rmult_le_pos; lra.
  - simpl. nra.
Qed.

Lemma atan2_pos_axis (d : R) : 0 < d → atan2 d 0 = PI / 2.
Proof.
  intros Hd. unfold atan2.
  rewrite decide_False by lra. rewrite decide_False by lra.
  by rewrite decide_True by lra.
Qed.

Lemma atan2_origin : atan2 0 0 = 0.
Proof.
  unfold atan2. by rewrite !decide_False by lra.
Qed.

Lemma py_range_cons (lo hi : Z) :
  (lo < hi)%Z → py_range lo hi = lo :: py_range (lo + 1) hi.
Proof.
  intros H. unfold py_range.
  replace (Z.to_nat (hi - lo)) with (S (Z.to_nat (hi - (lo + 1)))) by lia.
  simpl. f_equal; [lia|].
  rewrite <- fmap_S_seq, <- list_fmap_compose.
  apply list_fmap_ext. intros _ k _. simpl. lia.
Qed.

Lemma py_range_nil (lo hi : Z) : (hi <= lo)%Z → py_range lo hi = [].
Proof.
  intros H. unfold py_range. by replace (Z.to_nat (hi - lo)) with 0%nat by lia.
Qed.

Lemma elem_of_py_range (lo hi r : Z) :
  r ∈ py_range lo hi ↔ (lo <= r < hi)%Z.
Proof.
  unfold py_range. rewrite list_elem_of_fmap. split.
  - intros (k & -> & Hk). apply elem_of_seq in Hk. lia.
  - intros H. exists (Z.to_nat (r - lo)). split; [lia|].
    apply elem_of_seq. lia.
Qed.

(** The first element of a range that satisfies [f]. *)
Lemma find_py_range_first (f : Z → bool) (lo hi r : Z) :
  (lo <= r < hi)%Z → f r = true →
  (∀ r', (lo <= r' < r)%Z → f r' = false) →
  find f (py_range lo hi) = Some r.
Proof.
  intros Hr Hf Hbefore.
  remember (Z.to_nat (r - lo)) as n eqn:Hn.
  revert lo Hr Hbefore Hn. induction n as [|n IH]; intros lo Hr Hbefore Hn.
  - assert (lo = r) by lia. subst lo.
    rewrite py_range_cons by lia. simpl. by rewrite Hf.
  - rewrite py_range_cons by lia. simpl.
    rewrite (Hbefore lo) by lia.
    apply IH; [lia| |lia]. intros r' Hr'. apply Hbefore. lia.
Qed.

Lemma find_none_iff {A} (f : A → bool) (l : list A) :
  (∀ a, a ∈ l → f a = false) → find f l = None.
Proof.
  induction l as [|a l IH]; intros H; simpl; [done|].
  rewrite (H a) by left. apply IH. intros b Hb. apply H. by right.
Qed.

(** ** The range scanner *)

Section get_ranges_facts.
Variable true_map : grid R.
Variable X : R * R * R.
Variable meas_phi : list R.
Variable rmax : Z.

Hypothesis Hrect : rectangular true_map.

#[local] Abbreviation cell_at := (cell_at true_map).
#[local] Abbreviation stops := (stops true_map X).
#[local] Abbreviation beam_range := (beam_range true_map X rmax).

(** Past the bounds test, the access [true_map[xi, yi]] is inside the
    array. *)
Lemma getitem2_on_map (c : Z * Z) :
  off_map true_map c = false →
  ∃ v, cell_at c = Some v ∧ getitem2 true_map c.1 c.2 = Ok v.
Proof.
  unfold off_map, map_rows, map_cols. intros Hoff.
  rewrite !orb_false_iff in Hoff. destruct Hoff as [[[H1 H2] H3] H4].
  apply bool_decide_eq_false in H1, H2, H3, H4. simpl in H2, H4.
  unfold cell_at, lookup2, getitem2.
  rewrite getitem_nonneg by lia.
  destruct (lookup_lt_is_Some_2 true_map (Z.to_nat c.1)) as [row Hrow];
    [lia|].
  rewrite Hrow. simpl.
  assert (Hlen : length row = (np_shape true_map).2).
  { unfold rectangular in Hrect. rewrite Forall_forall in Hrect.
    apply Hrect. by eapply list_elem_of_lookup_2. }
  simpl in Hlen.
  rewrite getitem_nonneg by lia.
  destruct (lookup_lt_is_Some_2 row (Z.to_nat c.2)) as [v Hv]; [lia|].
  rewrite Hv. by exists v.
Qed.

(** The inner loop raises no exception and leaves at the first step that
    [stops]. *)
Lemma march_find (phi : R) (rs : list Z) :
  march true_map X phi rs = Ok (find (stops phi) rs).
Proof.
  induction rs as [|r rs IH]; simpl; [done|].
  unfold stops at 1.
  destruct (off_map true_map (candidate X phi r)) eqn:Hoff; simpl; [done|].
  destruct (getitem2_on_map _ Hoff) as (v & Hcell & Hget).
  simpl in Hget. rewrite Hget. simpl.
  rewrite Hcell. case_decide as Hv.
  - subst v. by rewrite bool_decide_eq_true_2.
  - rewrite bool_decide_eq_false_2; [done|]. by intros [= ->].
Qed.

(** [get_ranges] as a function of its inputs. *)
Lemma get_ranges_spec :
  get_ranges true_map X meas_phi rmax = Ok (beam_range <$> meas_phi).
Proof.
  unfold get_ranges.
  destruct (for_each_ok (scan_beam true_map X meas_phi rmax)
    (λ done t, t = (beam_range <$> take (length done) meas_phi)
                   ++ replicate (length meas_phi - length done) (IZR rmax))
    (seq 0 (length meas_phi))
    (replicate (length meas_phi) (IZR rmax))) as (mr & Hrun & Hmr).
  - simpl. by rewrite Nat.sub_0_r.
  - intros done i rest t Hsplit ->.
    apply seq_split_inv in Hsplit as (-> & _ & Hlt).
    unfold scan_beam. rewrite getitem_nat.
    destruct (lookup_lt_is_Some_2 meas_phi (length done) Hlt) as [phi Hphi].
    rewrite Hphi. simpl. rewrite march_find. simpl.
    rewrite length_app. simpl. rewrite Nat.add_1_r.
    rewrite (take_S_r _ _ phi Hphi), fmap_app. simpl.
    replace (length meas_phi - length done)%nat
      with (S (length meas_phi - S (length done))) by lia.
    simpl. rewrite <- app_assoc. simpl.
    assert (Hpre : length (beam_range <$> take (length done) meas_phi)
                   = length done).
    { rewrite length_fmap, length_take. lia. }
    assert (Hbr : beam_range phi
      = IZR (default rmax (find (stops phi) (py_range 1 (rmax + 1)))))
      by done.
    rewrite Hbr. clear Hbr.
    destruct (find (stops phi) (py_range 1 (rmax + 1))) as [r|]; simpl.
    + rewrite setitem_nat.
      rewrite decide_True by (rewrite length_app, Hpre; simpl; lia).
      eexists. split; [done|].
      rewrite insert_app_r_alt by lia. by rewrite Hpre, Nat.sub_diag.
    + by eexists.
  - rewrite Hrun. f_equal. subst mr. rewrite length_seq.
    rewrite Nat.sub_diag, firstn_all. simpl. by rewrite app_nil_r.
Qed.
End get_ranges_facts.

Lemma find_ext_all {A} (f g : A → bool) (l : list A) :
  (∀ a, f a = g a) → find f l = find g l.
Proof.
  intros H. induction l as [|a l IH]; simpl; [done|].
  by rewrite H, IH.
Qed.

Lemma off_map_interior (true_map : grid R) (c : Z * Z) :
  off_map true_map c = false →
  interior true_map (Z.to_nat c.1) (Z.to_nat c.2).
Proof.
  unfold off_map, map_rows, map_cols, interior. intros Hoff.
  rewrite !orb_false_iff in Hoff. destruct Hoff as [[[H1 H2] H3] H4].
  apply bool_decide_eq_false in H1, H2, H3, H4. lia.
Qed.

Lemma stops_agree (true_map map' : grid R) (X : R * R * R) (phi : R) (r : Z) :
  np_shape map' = np_shape true_map →
  (∀ i j, interior true_map i j → lookup2 map' i j = lookup2 true_map i j) →
  stops map' X phi r = stops true_map X phi r.
Proof.
  intros Hshape Hin. unfold stops.
  assert (Hoff : ∀ c, off_map map' c = off_map true_map c).
  { intros c. unfold off_map, map_rows, map_cols. by rewrite Hshape. }
  rewrite Hoff.
  destruct (off_map true_map (candidate X phi r)) eqn:Hc; [done|]. simpl.
  unfold cell_at. rewrite Hin; [done|]. by apply off_map_interior.
Qed.

(** C7: when along a bearing no step r = 1, ..., rmax meets a cell that
    fails the scanner's bounds test or holds an obstacle, [get_ranges]
    returns exactly [rmax] for that bearing. *)
Theorem get_ranges_max_range (true_map : grid R) (X : R * R * R)
    (meas_phi : list R) (rmax : Z) (i : nat) (phi : R) :
  rectangular true_map →
  meas_phi !! i = Some phi →
  (∀ r, (1 <= r <= rmax)%Z →
     off_map true_map (candidate X phi r) = false ∧
     cell_at true_map (candidate X phi r) ≠ Some 1) →
  ∃ meas_r,
    get_ranges true_map X meas_phi rmax = Ok meas_r ∧
    meas_r !! i = Some (IZR rmax).
Proof.
  intros Hrect Hphi Hfree. rewrite get_ranges_spec by done.
  eexists. split; [done|].
  rewrite list_lookup_fmap, Hphi. simpl. unfold beam_range.
  rewrite find_none_iff; [done|].
  intros r Hr. apply elem_of_py_range in Hr.
  destruct (Hfree r) as [Hoff Hcell]; [lia|].
  unfold stops. rewrite Hoff. simpl. by rewrite bool_decide_eq_false_2.
Qed.

(** C10: [get_ranges] reads the map only at cells that passed the bounds
    test: on every rectangular map it returns without an exception, a beam
    whose first stopping candidate fails the bounds test records that step,
    and the result does not depend on what the map holds outside the
    interior cells. *)
Theorem get_ranges_reads_interior_only (true_map : grid R) (X : R * R * R)
    (meas_phi : list R) (rmax : Z) :
  rectangular true_map →
  (∃ meas_r,
     get_ranges true_map X meas_phi rmax = Ok meas_r ∧
     ∀ i phi r,
       meas_phi !! i = Some phi → (1 <= r <= rmax)%Z →
       (∀ r', (1 <= r' < r)%Z → stops true_map X phi r' = false) →
       off_map true_map (candidate X phi r) = true →
       meas_r !! i = Some (IZR r)) ∧
  (∀ map',
     rectangular map' → np_shape map' = np_shape true_map →
     (∀ i j, interior true_map i j → lookup2 map' i j = lookup2 true_map i j) →
     get_ranges map' X meas_phi rmax = get_ranges true_map X meas_phi rmax).
Proof.
  intros Hrect. split.
  - rewrite get_ranges_spec by done. eexists. split; [done|].
    intros i phi r Hphi Hr Hbefore Hoff.
    rewrite list_lookup_fmap, Hphi. simpl. unfold beam_range.
    rewrite (find_py_range_first _ 1 (rmax + 1) r); [done|lia| |done].
    unfold stops. by rewrite Hoff.
  - intros map' Hrect' Hshape Hin.
    rewrite !get_ranges_spec by done. f_equal.
    apply list_fmap_ext. intros _ phi _. unfold beam_range. do 2 f_equal.
    apply find_ext_all. intros r. by apply stops_agree.
Qed.

(** ** A sensor looking along the second axis *)

Lemma free_map_rectangular : rectangular free_map.
Proof. unfold rectangular. simpl. repeat constructor. Qed.

Lemma obstacle_map_rectangular : rectangular obstacle_map.
Proof. unfold rectangular. simpl. repeat constructor. Qed.

(** With heading [PI / 2] and bearing [0] the beam from [(x0, y0)] visits
    the cells [(x0, y0 + r)]. *)
Lemma candidate_north (x0 y0 r : Z) :
  candidate (IZR x0, IZR y0, PI / 2) 0 r = (x0, (y0 + r)%Z).
Proof.
  unfold candidate, pose_x, pose_y, pose_theta. simpl.
  rewrite Rplus_0_r, cos_PI2, sin_PI2. f_equal.
  - replace (IZR x0 + IZR r * 0) with (IZR x0) by lra. apply py_round_IZR.
  - replace (IZR y0 + IZR r * 1) with (IZR (y0 + r)) by (rewrite plus_IZR; lra).
    apply py_round_IZR.
Qed.

Lemma cell_range_axis (x y : R) (i j : nat) :
  INR i = x → y <= INR j → cell_range x y i j = INR j - y.
Proof.
  intros Hi Hj. unfold cell_range.
  replace ((INR i - x) ^ 2 + (INR j - y) ^ 2) with (Rsqr (INR j - y))
    by (unfold Rsqr; rewrite Hi; ring).
  apply sqrt_Rsqr. lra.
Qed.

Lemma cell_bearing_ahead (x y : R) (i j : nat) :
  INR i = x → y < INR j → cell_bearing x y (PI / 2) i j = 0.
Proof.
  intros Hi Hj. unfold cell_bearing.
  replace (INR i - x) with 0 by lra.
  rewrite atan2_pos_axis by lra.
  pose proof PI_RGT_0.
  replace (PI / 2 - PI / 2 + PI) with PI by lra.
  rewrite py_mod_small; lra.
Qed.

Lemma cell_bearing_own (x y : R) (i j : nat) :
  INR i = x → INR j = y → cell_bearing x y (PI / 2) i j = - (PI / 2).
Proof.
  intros Hi Hj. unfold cell_bearing.
  replace (INR i - x) with 0 by lra. replace (INR j - y) with 0 by lra.
  rewrite atan2_origin.
  pose proof PI_RGT_0.
  rewrite py_mod_small; lra.
Qed.

(** With one beam, the nearest bearing is that beam. *)
Lemma cell_decision_one_beam (x y theta p r0 rmax alpha beta : R) (i j : nat) :
  cell_decision x y theta [p] [r0] rmax alpha beta i j =
    Ok (classify rmax alpha beta
          (cell_range x y i j) (cell_bearing x y theta i j) p r0).
Proof. reflexivity. Qed.

(** The conditions under which each branch of [classify] is taken. *)
Section classify_branches.
Variables rmax alpha beta r phi pk rk : R.

Lemma classify_unknown :
  r > Rmin rmax (rk + alpha / 2) ∨ Rabs (phi - pk) > beta / 2 →
  classify rmax alpha beta r phi pk rk = Some p_unknown.
Proof.
  intros H. unfold classify.
  destruct H as [H|H].
  - by rewrite (bool_decide_eq_true_2 _ H).
  - rewrite (bool_decide_eq_true_2 _ H). by rewrite orb_true_r.
Qed.

Lemma classify_occupied :
  r <= Rmin rmax (rk + alpha / 2) → Rabs (phi - pk) <= beta / 2 →
  rk < rmax → Rabs (r - rk) < alpha / 2 →
  classify rmax alpha beta r phi pk rk = Some p_occupied.
Proof.
  intros H1 H2 H3 H4. unfold classify.
  rewrite !bool_decide_eq_false_2 by lra. simpl.
  by rewrite !bool_decide_eq_true_2 by lra.
Qed.

Lemma classify_free :
  r <= Rmin rmax (rk + alpha / 2) → Rabs (phi - pk) <= beta / 2 →
  ¬ (rk < rmax ∧ Rabs (r - rk) < alpha / 2) → r < rk →
  classify rmax alpha beta r phi pk rk = Some p_free.
Proof.
  intros H1 H2 H3 H4. unfold classify.
  rewrite (bool_decide_eq_false_2 (r > _)) by lra.
  rewrite (bool_decide_eq_false_2 (Rabs (phi - pk) > _)) by lra. simpl.
  rewrite (bool_decide_eq_true_2 (r < rk)) by done.
  destruct (bool_decide (rk < rmax)) eqn:E1; [|done].
  destruct (bool_decide (Rabs (r - rk) < alpha / 2)) eqn:E2; [|done].
  apply bool_decide_eq_true in E1, E2. tauto.
Qed.

Lemma classify_none :
  r <= Rmin rmax (rk + alpha / 2) → Rabs (phi - pk) <= beta / 2 →
  ¬ (rk < rmax ∧ Rabs (r - rk) < alpha / 2) → rk <= r →
  classify rmax alpha beta r phi pk rk = None.
Proof.
  intros H1 H2 H3 H4. unfold classify.
  rewrite (bool_decide_eq_false_2 (r > _)) by lra.
  rewrite (bool_decide_eq_false_2 (Rabs (phi - pk) > _)) by lra. simpl.
  rewrite (bool_decide_eq_false_2 (r < rk)) by lra.
  destruct (bool_decide (rk < rmax)) eqn:E1; [|done].
  destruct (bool_decide (Rabs (r - rk) < alpha / 2)) eqn:E2; [|done].
  apply bool_decide_eq_true in E1, E2. tauto.
Qed.
End classify_branches.

Ltac real_cases :=
  unfold Rmin, Rabs, p_free, p_unknown, p_occupied in *;
  repeat match goal with
  | |- context [Rle_dec ?a ?b] => destruct (Rle_dec a b)
  | |- context [Rcase_abs ?a] => destruct (Rcase_abs a)
  | H : context [Rle_dec ?a ?b] |- _ => destruct (Rle_dec a b)
  | H : context [Rcase_abs ?a] |- _ => destruct (Rcase_abs a)
  end;
  try lra.

Lemma stops_obstacle_column (r : Z) :
  (1 <= r <= 8)%Z →
  stops obstacle_map (5, 0, PI / 2) 0 r = bool_decide (r = 5)%Z.
Proof.
  intros Hr. unfold stops. rewrite candidate_north.
  assert (Hcases : (r = 1 ∨ r = 2 ∨ r = 3 ∨ r = 4 ∨ r = 5 ∨ r = 6 ∨ r = 7
                    ∨ r = 8)%Z) by lia.
  destruct Hcases as [-> | [-> | [-> | [-> | [-> | [-> | [-> | ->] ] ] ] ] ] ].
  all: unfold off_map, map_rows, map_cols, cell_at; simpl.
  all: try (apply bool_decide_eq_true_2; reflexivity).
  all: apply bool_decide_eq_false_2; intros H; simpl in H;
    injection H as H; lra.
Qed.

Lemma get_ranges_obstacle_map :
  get_ranges obstacle_map (5, 0, PI / 2) [0] 10 = Ok [5].
Proof.
  rewrite get_ranges_spec by apply obstacle_map_rectangular.
  simpl. unfold beam_range.
  rewrite (find_py_range_first _ 1 (10 + 1) 5); [done|lia| |].
  - by rewrite stops_obstacle_column by lia.
  - intros r' Hr'. rewrite stops_obstacle_column by lia.
    apply bool_decide_eq_false_2. lia.
Qed.

Lemma inverse_scanner_cell (M N num_rows num_cols : nat) (x y theta : R)
    (meas_phi meas_r : list R) (rmax alpha beta : R)
    (m : grid R) (i j : nat) (d : option R) :
  inverse_scanner M N num_rows num_cols x y theta
    meas_phi meas_r rmax alpha beta = Ok m →
  (i < num_rows)%nat → (j < num_cols)%nat → (i < M)%nat → (j < N)%nat →
  cell_decision x y theta meas_phi meas_r rmax alpha beta i j = Ok d →
  lookup2 m i j = Some (default 0 d).
Proof.
  intros Hrun Hi Hj HiM HjN Hd.
  apply inverse_scanner_result in Hrun as [Hs Hc].
  destruct (proj2 (lookup2_is_Some m M N i j Hs) (conj HiM HjN)) as [v Hv].
  destruct (Hc i j v Hv) as [H1 _].
  destruct H1 as (d' & Hd' & ->); [done|].
  rewrite Hv. congruence.
Qed.

(** The cells of row 5 seen from the pose [(5, y0, PI / 2)] with the single
    bearing [0]: the cells ahead lie on the beam, the sensor's own cell has
    the relative bearing [- PI / 2]. *)
Lemma column_cell_ahead (y0 r0 rmax alpha beta : R) (m : grid R) (j : nat) :
  inverse_scanner 10 10 10 10 5 y0 (PI / 2) [0] [r0] rmax alpha beta = Ok m →
  (j < 10)%nat → y0 < INR j →
  lookup2 m 5 j =
    Some (default 0 (classify rmax alpha beta (INR j - y0) 0 0 r0)).
Proof.
  intros Hrun Hj Hy.
  rewrite (inverse_scanner_cell _ _ _ _ _ _ _ _ _ _ _ _ _ 5 j
             (classify rmax alpha beta (INR j - y0) 0 0 r0) Hrun);
    [done|lia..|].
  rewrite cell_decision_one_beam.
  rewrite cell_range_axis by (simpl; lra).
  by rewrite cell_bearing_ahead by (simpl; lra).
Qed.

Lemma column_cell_own (y0 r0 rmax alpha beta : R) (m : grid R) (j : nat) :
  inverse_scanner 10 10 10 10 5 y0 (PI / 2) [0] [r0] rmax alpha beta = Ok m →
  (j < 10)%nat → INR j = y0 →
  lookup2 m 5 j =
    Some (default 0 (classify rmax alpha beta 0 (- (PI / 2)) 0 r0)).
Proof.
  intros Hrun Hj Hy.
  rewrite (inverse_scanner_cell _ _ _ _ _ _ _ _ _ _ _ _ _ 5 j
             (classify rmax alpha beta 0 (- (PI / 2)) 0 r0) Hrun);
    [done|lia..|].
  rewrite cell_decision_one_beam.
  rewrite cell_range_axis by (simpl; lra).
  rewrite cell_bearing_own by (simpl; lra).
  by replace (INR j - y0) with 0 by lra.
Qed.

(** C5 (amended): on the 10 by 10 map whose only obstacle is the cell
    (5, 5), from the pose (5, 0, PI / 2) with the single bearing 0 and
    rmax = 10, [get_ranges] returns the range 5; with 0 < alpha < 2 and
    0 <= beta < PI the grid of [inverse_scanner] for that scan holds 0.7 at
    (5, 5), 0.3 at (5, 1) to (5, 4), 0.5 at (5, 6) to (5, 9), and 0.5 at the
    sensor's own cell (5, 0), whose relative bearing is - PI / 2. *)
Theorem end_to_end_example (alpha beta : R) :
  0 < alpha < 2 → 0 <= beta < PI →
  get_ranges obstacle_map (5, 0, PI / 2) [0] 10 = Ok [5] ∧
  ∃ m,
    inverse_scanner 10 10 10 10 5 0 (PI / 2) [0] [5] 10 alpha beta = Ok m ∧
    lookup2 m 5 5 = Some p_occupied ∧
    (∀ j, (1 <= j <= 4)%nat → lookup2 m 5 j = Some p_free) ∧
    (∀ j, (6 <= j <= 9)%nat → lookup2 m 5 j = Some p_unknown) ∧
    lookup2 m 5 0 = Some p_unknown.
Proof.
  intros Ha Hb. split; [apply get_ranges_obstacle_map|].
  destruct (inverse_scanner_ok 10 10 10 10 5 0 (PI / 2) [0] [5] 10 alpha beta)
    as [m Hm]; [done|simpl; lia|lia|lia|].
  exists m. split; [done|]. repeat split.
  - rewrite (column_cell_ahead _ _ _ _ _ _ _ Hm) by (simpl; (lia || lra)).
    rewrite classify_occupied; [done|simpl; real_cases..].
  - intros j Hj.
    assert (Hcases : (j = 1 ∨ j = 2 ∨ j = 3 ∨ j = 4)%nat) by lia.
    rewrite (column_cell_ahead _ _ _ _ _ _ _ Hm);
      [|lia|destruct Hcases as [-> | [-> | [-> | ->] ] ]; simpl; lra].
    rewrite classify_free; [done|..];
      destruct Hcases as [-> | [-> | [-> | ->] ] ]; simpl;
      try (intros [_ H]; revert H); real_cases.
  - intros j Hj.
    assert (Hcases : (j = 6 ∨ j = 7 ∨ j = 8 ∨ j = 9)%nat) by lia.
    rewrite (column_cell_ahead _ _ _ _ _ _ _ Hm);
      [|lia|destruct Hcases as [-> | [-> | [-> | ->] ] ]; simpl; lra].
    rewrite classify_unknown; [done|]. left.
    destruct Hcases as [-> | [-> | [-> | ->] ] ]; simpl; real_cases.
  - rewrite (column_cell_own _ _ _ _ _ _ _ Hm) by (simpl; (lia || lra)).
    rewrite classify_unknown; [done|]. right. real_cases.
Qed.

Lemma end_to_end_example_witness :
  get_ranges obstacle_map (5, 0, PI / 2) [0] 10 = Ok [5] ∧
  ∃ m,
    inverse_scanner 10 10 10 10 5 0 (PI / 2) [0] [5] 10 1 (5 / 100) = Ok m ∧
    lookup2 m 5 5 = Some p_occupied ∧
    (∀ j, (1 <= j <= 4)%nat → lookup2 m 5 j = Some p_free) ∧
    (∀ j, (6 <= j <= 9)%nat → lookup2 m 5 j = Some p_unknown) ∧
    lookup2 m 5 0 = Some p_unknown.
Proof.
  apply (end_to_end_example 1 (5 / 100)); [lra|].
  pose proof PI2_1. lra.
Defined.

(** With the notebook's alpha = 1 and beta = 0.05 the cell (5, 0) of that
    grid holds 0.5, not 0.3. *)
Lemma end_to_end_own_cell_unknown :
  ∃ m,
    inverse_scanner 10 10 10 10 5 0 (PI / 2) [0] [5] 10 1 (5 / 100) = Ok m ∧
    lookup2 m 5 0 = Some p_unknown ∧
    lookup2 m 5 0 ≠ Some p_free.
Proof.
  destruct (inverse_scanner_ok 10 10 10 10 5 0 (PI / 2) [0] [5] 10 1 (5 / 100))
    as [m Hm]; [done|simpl; lia|lia|lia|].
  exists m. split; [done|].
  assert (Hcell : lookup2 m 5 0 = Some p_unknown).
  { rewrite (column_cell_own _ _ _ _ _ _ _ Hm) by (simpl; (lia || lra)).
    rewrite classify_unknown; [done|]. right.
    pose proof PI2_1. real_cases. }
  split; [done|]. rewrite Hcell. intros [= H]. revert H. real_cases.
Qed.

(** On the map without obstacles the beam from (5, 2) runs three steps
    without stopping. *)
Lemma free_column_clear (r : Z) :
  (1 <= r <= 3)%Z →
  off_map free_map (candidate (5, 2, PI / 2) 0 r) = false ∧
  cell_at free_map (candidate (5, 2, PI / 2) 0 r) ≠ Some 1.
Proof.
  intros Hr. rewrite candidate_north.
  assert (Hcases : (r = 1 ∨ r = 2 ∨ r = 3)%Z) by lia.
  destruct Hcases as [-> | [-> | ->] ].
  all: split; [reflexivity|].
  all: unfold cell_at; simpl; intros H; injection H as H; lra.
Qed.

Lemma get_ranges_free_map :
  get_ranges free_map (5, 2, PI / 2) [0] 3 = Ok [3].
Proof.
  rewrite get_ranges_spec by apply free_map_rectangular.
  simpl. unfold beam_range. rewrite find_none_iff; [done|].
  intros r Hr. apply elem_of_py_range in Hr.
  destruct (free_column_clear r) as [Hoff Hcell]; [lia|].
  unfold stops. rewrite Hoff. simpl. by rewrite bool_decide_eq_false_2.
Qed.

Lemma get_ranges_max_range_witness :
  ∃ meas_r,
    get_ranges free_map (5, 2, PI / 2) [0] 3 = Ok meas_r ∧
    meas_r !! 0%nat = Some (IZR 3).
Proof.
  apply (get_ranges_max_range free_map (5, 2, PI / 2) [0] 3 0 0).
  - apply free_map_rectangular.
  - reflexivity.
  - apply free_column_clear.
Defined.

Lemma get_ranges_reads_interior_only_witness :
  (∃ meas_r,
     get_ranges obstacle_map (5, 0, PI / 2) [0] 10 = Ok meas_r ∧
     ∀ i phi r,
       [0] !! i = Some phi → (1 <= r <= 10)%Z →
       (∀ r', (1 <= r' < r)%Z →
          stops obstacle_map (5, 0, PI / 2) phi r' = false) →
       off_map obstacle_map (candidate (5, 0, PI / 2) phi r) = true →
       meas_r !! i = Some (IZR r)) ∧
  (∀ map',
     rectangular map' → np_shape map' = np_shape obstacle_map →
     (∀ i j, interior obstacle_map i j →
        lookup2 map' i j = lookup2 obstacle_map i j) →
     get_ranges map' (5, 0, PI / 2) [0] 10
     = get_ranges obstacle_map (5, 0, PI / 2) [0] 10).
Proof.
  apply (get_ranges_reads_interior_only obstacle_map (5, 0, PI / 2) [0] 10).
  apply obstacle_map_rectangular.
Defined.

(** The cell (5, 5) lies at exactly the range 3 on the beam from
    (5, 2): with rmax = 3 and the reading 3 no branch is taken. *)
Lemma zero_cell_scan :
  ∃ m,
    inverse_scanner 10 10 10 10 5 2 (PI / 2) [0] [3] 3 1 (5 / 100) = Ok m ∧
    lookup2 m 5 5 = Some 0.
Proof.
  destruct (inverse_scanner_ok 10 10 10 10 5 2 (PI / 2) [0] [3] 3 1 (5 / 100))
    as [m Hm]; [done|simpl; lia|lia|lia|].
  exists m. split; [done|].
  rewrite (column_cell_ahead _ _ _ _ _ _ _ Hm) by (simpl; (lia || lra)).
  rewrite classify_none; [done|simpl..].
  - real_cases.
  - real_cases.
  - intros [H _]. lra.
  - lra.
Qed.

(** C1: the cell lying at exactly the maximum range on a beam that read the
    maximum range is left at the initial 0: on the 10 by 10 map without
    obstacles, from the pose (5, 2, PI / 2) with the single bearing 0,
    rmax = 3, alpha = 1 and beta = 0.05, the scan is [3] and the grid of
    [inverse_scanner] holds 0 at the cell (5, 5). *)
Theorem inverse_scanner_leaves_zero :
  ∃ meas_r m,
    get_ranges free_map (5, 2, PI / 2) [0] 3 = Ok meas_r ∧
    inverse_scanner 10 10 10 10 5 2 (PI / 2) [0] meas_r 3 1 (5 / 100) = Ok m ∧
    lookup2 m 5 5 = Some 0 ∧
    0 ≠ p_free ∧ 0 ≠ p_unknown ∧ 0 ≠ p_occupied.
Proof.
  destruct zero_cell_scan as (m & Hm & Hzero).
  exists [3], m. split; [apply get_ranges_free_map|].
  repeat split; try done; real_cases.
Qed.

Lemma np_shape_row_lengths {A} (g : grid A) (M N : nat) :
  row_lengths g = replicate (S M) N → np_shape g = (S M, N).
Proof.
  unfold row_lengths, np_shape. intros H.
  destruct g as [|row g]; [done|]. simpl in *.
  injection H as H1 H2. f_equal; [|done].
  apply (f_equal length) in H2.
  rewrite length_fmap, length_replicate in H2. lia.
Qed.

(** C9: the array is allocated with the module-level M and N, not with the
    arguments: with M = 50 and N = 60 the call with num_rows = num_cols = 2
    returns a grid of shape (50, 60). *)
Theorem inverse_scanner_shape_from_globals :
  ∃ m,
    inverse_scanner 50 60 2 2 30 30 0 [0] [30] 30 1 (5 / 100) = Ok m ∧
    np_shape m = (50, 60)%nat ∧ np_shape m ≠ (2, 2)%nat.
Proof.
  destruct (inverse_scanner_ok 50 60 2 2 30 30 0 [0] [30] 30 1 (5 / 100))
    as [m Hm]; [done|simpl; lia|lia|lia|].
  exists m. split; [done|].
  apply inverse_scanner_result in Hm as [Hs _].
  rewrite (np_shape_row_lengths m 49 60 Hs). split; [done|]. intros [=].
Qed.

Lemma for_each_unchanged {A S} (f : S → A → result S) (s : S) (l : list A) :
  (∀ a, f s a = Ok s) → for_each f s l = Ok s.
Proof.
  intros H. induction l as [|a l IH]; simpl; [done|]. by rewrite H.
Qed.

(** An empty [meas_phi] makes [np.argmin] raise at the first cell. *)
Lemma inverse_scanner_empty_bearings (M N num_rows num_cols : nat)
    (x y theta : R) (meas_r : list R) (rmax alpha beta : R) :
  inverse_scanner M N num_rows num_cols x y theta [] meas_r rmax alpha beta =
    if decide (num_rows = 0 ∨ num_cols = 0)%nat
    then Ok (full M N 0)
    else Raise ValueError.
Proof.
  unfold inverse_scanner. case_decide as H.
  - destruct H as [-> | ->]; [done|].
    apply for_each_unchanged. by intros i.
  - destruct num_rows as [|n]; [tauto|].
    destruct num_cols as [|c]; [tauto|]. reflexivity.
Qed.

(** C8 (amended): with an empty bearings sequence [inverse_scanner] raises
    the ValueError of [np.argmin] as soon as the loops visit a cell, and
    returns the grid of zeros when they visit none; in no case does it raise
    InvalidConfiguration. *)
Theorem inverse_scanner_no_bearings (M N num_rows num_cols : nat)
    (x y theta : R) (meas_r : list R) (rmax alpha beta : R) :
  inverse_scanner M N num_rows num_cols x y theta [] meas_r rmax alpha beta =
    (if decide (num_rows = 0 ∨ num_cols = 0)%nat
     then Ok (full M N 0)
     else Raise ValueError) ∧
  inverse_scanner M N num_rows num_cols x y theta [] meas_r rmax alpha beta
    ≠ Raise InvalidConfiguration.
Proof.
  rewrite inverse_scanner_empty_bearings. split; [done|].
  by case_decide.
Qed.

(** On a 10 by 10 grid the call without bearings raises ValueError. *)
Lemma inverse_scanner_no_bearings_value_error :
  inverse_scanner 10 10 10 10 5 0 (PI / 2) [] [] 10 1 (5 / 100)
    = Raise ValueError ∧
  inverse_scanner 10 10 10 10 5 0 (PI / 2) [] [] 10 1 (5 / 100)
    ≠ Raise InvalidConfiguration.
Proof.
  rewrite inverse_scanner_empty_bearings. by rewrite decide_False by lia.
Qed.

Ltac classify_cases :=
  unfold classify in *;
  repeat case_bool_decide; simpl in *;
  try discriminate; try done;
  repeat match goal with
  | H : Some _ = Some _ |- _ => injection H as H
  end;
  real_cases.

(** C6 (amended): for a beam with measured range r0 < rmax, alpha > 0 and a
    cell kept within the beam's angular influence, the cell is free (0.3)
    for r <= r0 - alpha/2, occupied (0.7) for |r - r0| < alpha/2 as long as
    r <= rmax, and unknown (0.5) for r > min(rmax, r0 + alpha/2); as r
    grows the classification never goes back from occupied to free nor
    leaves unknown. *)
Theorem classify_sweep (rmax alpha beta phi pk r0 : R) :
  r0 < rmax → 0 < alpha → Rabs (phi - pk) <= beta / 2 →
  (∀ r, r <= r0 - alpha / 2 →
     classify rmax alpha beta r phi pk r0 = Some p_free) ∧
  (∀ r, Rabs (r - r0) < alpha / 2 → r <= rmax →
     classify rmax alpha beta r phi pk r0 = Some p_occupied) ∧
  (∀ r, Rmin rmax (r0 + alpha / 2) < r →
     classify rmax alpha beta r phi pk r0 = Some p_unknown) ∧
  (∀ r1 r2, r1 <= r2 →
     (classify rmax alpha beta r1 phi pk r0 = Some p_occupied →
      classify rmax alpha beta r2 phi pk r0 ≠ Some p_free) ∧
     (classify rmax alpha beta r1 phi pk r0 = Some p_unknown →
      classify rmax alpha beta r2 phi pk r0 = Some p_unknown)).
Proof.
  intros Hr0 Ha Hphi. repeat split.
  - intros r Hr. apply classify_free; [real_cases|done| |lra].
    intros [_ H]. revert H. real_cases.
  - intros r Hr Hmax. apply classify_occupied; [|done|done|done].
    revert Hr. real_cases.
  - intros r Hr. apply classify_unknown. left. lra.
  - intros H1 H2. classify_cases.
  - intros H1. classify_cases.
Qed.

Lemma classify_sweep_witness :
  (∀ r, r <= 5 - 1 / 2 →
     classify 10 1 (5 / 100) r 0 0 5 = Some p_free) ∧
  (∀ r, Rabs (r - 5) < 1 / 2 → r <= 10 →
     classify 10 1 (5 / 100) r 0 0 5 = Some p_occupied) ∧
  (∀ r, Rmin 10 (5 + 1 / 2) < r →
     classify 10 1 (5 / 100) r 0 0 5 = Some p_unknown) ∧
  (∀ r1 r2, r1 <= r2 →
     (classify 10 1 (5 / 100) r1 0 0 5 = Some p_occupied →
      classify 10 1 (5 / 100) r2 0 0 5 ≠ Some p_free) ∧
     (classify 10 1 (5 / 100) r1 0 0 5 = Some p_unknown →
      classify 10 1 (5 / 100) r2 0 0 5 = Some p_unknown)).
Proof.
  apply (classify_sweep 10 1 (5 / 100) 0 0 5); [lra|lra|].
  rewrite Rminus_0_r, Rabs_R0. lra.
Defined.

(** Two points of the sweep outside the three regions as stated: inside
    the surface band but beyond rmax the cell is unknown, and at exactly
    r0 + alpha/2 no branch is taken. *)
Lemma classify_sweep_gaps :
  (Rabs (21 / 2 - 9) < 4 / 2 ∧
   classify 10 4 1 (21 / 2) 0 0 9 = Some p_unknown ∧
   p_unknown ≠ p_occupied) ∧
  classify 10 1 1 (5 + 1 / 2) 0 0 5 = None.
Proof.
  repeat split.
  - real_cases.
  - apply classify_unknown. left. real_cases.
  - real_cases.
  - apply classify_none; [real_cases|real_cases| |lra].
    intros [_ H]. revert H. real_cases.
Qed.

(** ** Log-odds fusion *)

Lemma row_lengths_ew1 {A B} (f : A → B) (g : grid A) :
  row_lengths (ew1 f g) = row_lengths g.
Proof.
  unfold row_lengths, ew1. rewrite <- list_fmap_compose.
  apply list_fmap_ext. intros _ row _. simpl. by rewrite length_fmap.
Qed.

Lemma lookup2_ew1 {A B} (f : A → B) (g : grid A) (i j : nat) :
  lookup2 (ew1 f g) i j = f <$> lookup2 g i j.
Proof.
  unfold lookup2, ew1. rewrite list_lookup_fmap.
  destruct (g !! i) as [row|]; simpl; [|done].
  by rewrite list_lookup_fmap.
Qed.

Lemma row_lengths_zip_with {A B C} (f : A → B → C) (g : grid A) (h : grid B) :
  row_lengths g = row_lengths h →
  row_lengths (zip_with (zip_with f) g h) = row_lengths g.
Proof.
  unfold row_lengths. revert h.
  induction g as [|r g IH]; intros [|s h]; simpl; try done.
  intros [= Hlen Hrest]. f_equal; [|by apply IH].
  rewrite length_zip_with. lia.
Qed.

Lemma lookup2_zip_with {A B C} (f : A → B → C) (g : grid A) (h : grid B)
    (i j : nat) (a : A) (b : B) :
  lookup2 g i j = Some a → lookup2 h i j = Some b →
  lookup2 (zip_with (zip_with f) g h) i j = Some (f a b).
Proof.
  unfold lookup2. intros Ha Hb. rewrite lookup_zip_with.
  destruct (g !! i) as [r|]; [|done]. destruct (h !! i) as [s|]; [|done].
  simpl in *. rewrite lookup_zip_with. by rewrite Ha, Hb.
Qed.

Lemma ew2_ok {A B C} (f : A → B → C) (g : grid A) (h : grid B) :
  row_lengths g = row_lengths h →
  ew2 f g h = Ok (zip_with (zip_with f) g h).
Proof. intros H. unfold ew2. by rewrite decide_True. Qed.

(** On arrays of one shape the update raises no exception and acts cell by
    cell. *)
Lemma log_odds_update_cells (invmod L L0 : grid xreal) :
  row_lengths invmod = row_lengths L → row_lengths L = row_lengths L0 →
  ∃ L' m',
    log_odds_update invmod L L0 = Ok (L', m') ∧
    row_lengths L' = row_lengths L ∧
    row_lengths m' = row_lengths L ∧
    ∀ i j p l l0,
      lookup2 invmod i j = Some p → lookup2 L i j = Some l →
      lookup2 L0 i j = Some l0 →
      lookup2 L' i j = Some (cell_log_odds p l l0) ∧
      lookup2 m' i j = Some (cell_belief (cell_log_odds p l l0)).
Proof.
  intros H1 H2. unfold log_odds_update.
  rewrite (ew2_ok xdiv) by by rewrite row_lengths_ew1. simpl.
  set (odds := zip_with (zip_with xdiv) invmod (ew1 (xsub (Fin 1)) invmod)).
  assert (Hodds : row_lengths odds = row_lengths invmod).
  { apply row_lengths_zip_with. by rewrite row_lengths_ew1. }
  rewrite (ew2_ok xadd) by (rewrite row_lengths_ew1; congruence). simpl.
  set (s := zip_with (zip_with xadd) (ew1 xlog odds) L).
  assert (Hs : row_lengths s = row_lengths invmod).
  { unfold s. rewrite row_lengths_zip_with; rewrite row_lengths_ew1;
      congruence. }
  rewrite (ew2_ok xsub) by congruence. simpl.
  set (L' := zip_with (zip_with xsub) s L0).
  assert (HL' : row_lengths L' = row_lengths invmod).
  { unfold L'. rewrite row_lengths_zip_with; congruence. }
  rewrite (ew2_ok xdiv) by by rewrite !row_lengths_ew1. simpl.
  eexists _, _. split; [done|]. split; [congruence|]. split.
  { rewrite row_lengths_zip_with; rewrite !row_lengths_ew1; congruence. }
  intros i j p l l0 Hp Hl Hl0.
  assert (Hcell : lookup2 L' i j = Some (cell_log_odds p l l0)).
  { unfold L', cell_log_odds.
    apply lookup2_zip_with; [|done].
    apply lookup2_zip_with; [|done].
    rewrite lookup2_ew1.
    unfold odds.
    rewrite (lookup2_zip_with xdiv _ _ i j p (xsub (Fin 1) p)); [done|done|].
    by rewrite lookup2_ew1, Hp. }
  split; [done|]. unfold cell_belief.
  apply lookup2_zip_with.
  - by rewrite lookup2_ew1, Hcell.
  - by rewrite !lookup2_ew1, Hcell.
Qed.

(** The cell update on finite values is the formula on the reals. *)
Lemma cell_log_odds_finite (p l l0 : R) :
  0 < p < 1 →
  cell_log_odds (Fin p) (Fin l) (Fin l0) = Fin (ln (p / (1 - p)) + l - l0).
Proof.
  intros Hp. unfold cell_log_odds, xsub. simpl.
  rewrite decide_False by lra.
  assert (Hpos : 0 < p / (1 + - p)).
  { apply Rmult_lt_0_compat; [lra|]. apply Rinv_0_lt_compat. lra. }
  unfold xlog. rewrite decide_True by done. reflexivity.
Qed.

(** The largest double and the overflow of [np.exp]. *)
Lemma dbl_max_bounds : 2 ^ 1023 <= dbl_max ∧ dbl_max < 2 ^ 1024.
Proof.
  unfold dbl_max. rewrite <- (tech_pow_Rmult 2 1023).
  assert (Hp : 0 < 2 ^ 1023) by (apply pow_lt; lra).
  assert (Hq : 0 < / 2 ^ 52) by (apply Rinv_0_lt_compat, pow_lt; lra).
  assert (Hr : / 2 ^ 52 <= 1).
  { rewrite <- Rinv_1. apply Rinv_le_contravar; [lra|].
    apply pow_R1_Rle. lra. }
  split; nra.
Qed.

Lemma small_le_dbl_max (v : R) : v <= 4 → v <= dbl_max.
Proof.
  intros Hv. destruct dbl_max_bounds as [Hlo _].
  assert (H4 : 2 ^ 2 <= 2 ^ 1023) by (apply Rle_pow; [lra|lia]).
  simpl in H4. lra.
Qed.

Lemma two_pow_le_exp (n : nat) : 2 ^ n <= exp (INR n).
Proof.
  induction n as [|n IH].
  - simpl. rewrite exp_0. lra.
  - rewrite S_INR, exp_plus, <- tech_pow_Rmult.
    pose proof (exp_ineq1_le 1) as He. pose proof (exp_pos (INR n)).
    assert (0 < 2 ^ n) by (apply pow_lt; lra). nra.
Qed.

Lemma exp_INR_mult (n : nat) (v : R) : exp (INR n * v) = exp v ^ n.
Proof.
  induction n as [|n IH].
  - simpl. rewrite Rmult_0_l. apply exp_0.
  - rewrite S_INR, Rmult_plus_distr_r, Rmult_1_l, exp_plus, IH.
    simpl. ring.
Qed.

Lemma dbl_max_IZR : dbl_max = IZR (2 ^ 1024 - 2 ^ 971).
Proof.
  unfold dbl_max. rewrite minus_IZR.
  change 1024%Z with (Z.of_nat (1 + (52 + 971))).
  change 971%Z with (Z.of_nat 971).
  rewrite <- !pow_IZR.
  change 1023%nat with (52 + 971)%nat.
  rewrite !pow_add.
  assert (H : 2 ^ 52 ≠ 0) by (apply pow_nonzero; lra).
  generalize dependent (2 ^ 52). generalize (2 ^ 971). intros b a Ha.
  rewrite pow_1. field. exact Ha.
Qed.

Lemma ratio_pow_le (a b : Z) (n : nat) (d : Z) :
  (0 < b)%Z → (a ^ Z.of_nat n <= d * b ^ Z.of_nat n)%Z →
  (IZR a / IZR b) ^ n <= IZR d.
Proof.
  intros Hb H. apply IZR_le in H. rewrite mult_IZR, <- !pow_IZR in H.
  assert (Hb' : 0 < IZR b) by (apply IZR_lt in Hb; exact Hb).
  assert (Hp : 0 < IZR b ^ n) by (apply pow_lt; exact Hb').
  unfold Rdiv. rewrite Rpow_mult_distr, pow_inv.
  apply (Rmult_le_reg_r (IZR b ^ n)); [exact Hp|].
  rewrite Rmult_assoc, Rinv_l by lra. lra.
Qed.

Lemma ratio_pow_gt (a b : Z) (n : nat) (d : Z) :
  (0 < b)%Z → (d * b ^ Z.of_nat n < a ^ Z.of_nat n)%Z →
  IZR d < (IZR a / IZR b) ^ n.
Proof.
  intros Hb H. apply IZR_lt in H. rewrite mult_IZR, <- !pow_IZR in H.
  assert (Hb' : 0 < IZR b) by (apply IZR_lt in Hb; exact Hb).
  assert (Hp : 0 < IZR b ^ n) by (apply pow_lt; exact Hb').
  unfold Rdiv. rewrite Rpow_mult_distr, pow_inv.
  apply (Rmult_lt_reg_r (IZR b ^ n)); [exact Hp|].
  rewrite Rmult_assoc, Rinv_l by lra. lra.
Qed.

(** The odds 7 / 3 of an occupied cell: their 837th power is still a
    double, their 838th is not. *)
Lemma odds_pow_837 : (7 / 3) ^ 837 <= dbl_max.
Proof.
  rewrite dbl_max_IZR. apply ratio_pow_le; [lia|].
  apply Z.leb_le. vm_compute. reflexivity.
Qed.

Lemma odds_pow_838 : dbl_max < (7 / 3) ^ 838.
Proof.
  rewrite dbl_max_IZR. apply ratio_pow_gt; [lia|].
  apply Z.ltb_lt. vm_compute. reflexivity.
Qed.

(** The belief computed from a finite log-odds: the logistic function as
    long as [np.exp] does not overflow, NaN ([inf / inf]) when it does. *)
Lemma cell_belief_finite (l : R) :
  exp l <= dbl_max → cell_belief (Fin l) = Fin (exp l / (1 + exp l)).
Proof.
  intros Hl. unfold cell_belief. simpl. pose proof (exp_pos l).
  rewrite decide_False by lra. simpl. by rewrite decide_False by lra.
Qed.

Lemma cell_belief_overflow (l : R) :
  dbl_max < exp l → cell_belief (Fin l) = NaN.
Proof.
  intros Hl. unfold cell_belief. simpl. by rewrite decide_True.
Qed.

(** C2 (amended): on arrays of one shape the update returns, for every cell
    whose inverse-model value p is strictly between 0 and 1 and whose
    log-odds l and prior log-odds l0 are finite, the log-odds
    l' = ln (p / (1 - p)) + l - l0, and the belief exp l' / (1 + exp l') as
    long as exp l' does not exceed the largest double; above, the belief is
    NaN. *)
Theorem log_odds_update_formula (invmod L L0 : grid xreal) :
  row_lengths invmod = row_lengths L → row_lengths L = row_lengths L0 →
  ∃ L' m',
    log_odds_update invmod L L0 = Ok (L', m') ∧
    ∀ i j p l l0,
      lookup2 invmod i j = Some (Fin p) → 0 < p < 1 →
      lookup2 L i j = Some (Fin l) → lookup2 L0 i j = Some (Fin l0) →
      let l' := ln (p / (1 - p)) + l - l0 in
      lookup2 L' i j = Some (Fin l') ∧
      (exp l' <= dbl_max →
       lookup2 m' i j = Some (Fin (exp l' / (1 + exp l')))) ∧
      (dbl_max < exp l' → lookup2 m' i j = Some NaN).
Proof.
  intros H1 H2.
  destruct (log_odds_update_cells invmod L L0 H1 H2)
    as (L' & m' & Hrun & _ & _ & Hcells).
  exists L', m'. split; [done|].
  intros i j p l l0 Hp Hrange Hl Hl0 l'.
  destruct (Hcells i j _ _ _ Hp Hl Hl0) as [HL Hm].
  rewrite cell_log_odds_finite in HL, Hm by done.
  split; [done|]. split; intros Hexp.
  - by rewrite cell_belief_finite in Hm.
  - by rewrite cell_belief_overflow in Hm.
Qed.

Lemma log_odds_update_formula_witness :
  ∃ L' m',
    log_odds_update [[Fin (7 / 10)]] [[Fin 0]] [[Fin 0]] = Ok (L', m') ∧
    ∀ i j p l l0,
      lookup2 [[Fin (7 / 10)]] i j = Some (Fin p) → 0 < p < 1 →
      lookup2 [[Fin 0]] i j = Some (Fin l) →
      lookup2 [[Fin 0]] i j = Some (Fin l0) →
      let l' := ln (p / (1 - p)) + l - l0 in
      lookup2 L' i j = Some (Fin l') ∧
      (exp l' <= dbl_max →
       lookup2 m' i j = Some (Fin (exp l' / (1 + exp l')))) ∧
      (dbl_max < exp l' → lookup2 m' i j = Some NaN).
Proof.
  apply (log_odds_update_formula [[Fin (7 / 10)]] [[Fin 0]] [[Fin 0]]);
    reflexivity.
Defined.

(** With the log-odds 1024 and the measurement 0.7 the exponential
    overflows and the belief returned is NaN, not exp l' / (1 + exp l'). *)
Lemma log_odds_update_overflow :
  ∃ L' m',
    log_odds_update [[Fin (7 / 10)]] [[Fin 1024]] [[Fin 0]] = Ok (L', m') ∧
    lookup2 L' 0 0 = Some (Fin (ln (7 / 10 / (1 - 7 / 10)) + 1024 - 0)) ∧
    lookup2 m' 0 0 = Some NaN.
Proof.
  destruct (log_odds_update_cells [[Fin (7 / 10)]] [[Fin 1024]] [[Fin 0]])
    as (L' & m' & Hrun & _ & _ & Hcells); [done|done|].
  exists L', m'. split; [done|].
  destruct (Hcells 0%nat 0%nat (Fin (7 / 10)) (Fin 1024) (Fin 0))
    as [HL Hm]; [done|done|done|].
  rewrite cell_log_odds_finite in HL, Hm by lra.
  split; [done|]. rewrite cell_belief_overflow in Hm; [done|].
  destruct dbl_max_bounds as [_ Hhi].
  pose proof (two_pow_le_exp 1024) as Hexp.
  replace (INR 1024) with 1024 in Hexp
    by (rewrite INR_IZR_INZ; reflexivity).
  assert (Hlogit : 0 < ln (7 / 10 / (1 - 7 / 10))).
  { rewrite <- ln_1. apply ln_increasing; [lra|].
    replace (7 / 10 / (1 - 7 / 10)) with (7 / 3) by field. lra. }
  assert (Hmono : exp 1024 < exp (ln (7 / 10 / (1 - 7 / 10)) + 1024 - 0))
    by (apply exp_increasing; lra).
  lra.
Qed.

(** ** The simulation loop *)

Lemma cell_belief_sigmoid (l : xreal) :
  in_exp_range l →
  ∃ b, cell_belief l = Fin b ∧ sigmoid l = Fin b.
Proof.
  destruct l as [r| | |]; simpl; try done.
  - intros [Hr Hr']. exists (exp r / (1 + exp r)).
    rewrite cell_belief_finite by done. split; [done|].
    unfold sigmoid. simpl. pose proof (exp_pos r). pose proof (exp_pos (- r)).
    rewrite decide_False by lra. simpl. rewrite decide_False by lra. f_equal.
    rewrite exp_Ropp. field. lra.
  - intros _. exists 0. unfold cell_belief, sigmoid. simpl.
    rewrite decide_False by lra. split; [|done]. f_equal. lra.
Qed.

Lemma cell_log_odds_low (p : R) (l : xreal) (l0 : R) :
  p = 0 ∨ p = p_free ∨ p = p_unknown ∨ p = p_occupied →
  low_or_finite l →
  low_or_finite (cell_log_odds (Fin p) l (Fin l0)).
Proof.
  intros Hp Hl. unfold cell_log_odds, xsub. simpl.
  assert (Hden : 0 < 1 + - p)
    by (destruct Hp as [Hv|[Hv|[Hv|Hv] ] ]; real_cases).
  assert (Hnum : 0 <= p)
    by (destruct Hp as [Hv|[Hv|[Hv|Hv] ] ]; real_cases).
  rewrite decide_False by lra.
  assert (Hq : 0 <= p / (1 + - p)).
  { apply Rmult_le_pos; [done|]. left. by apply Rinv_0_lt_compat. }
  unfold xlog.
  destruct (decide (0 < p / (1 + - p))) as [Hpos|Hpos].
  - by destruct l.
  - rewrite decide_True by lra. by destruct l.
Qed.

Lemma prior_log_odds :
  xlog (xdiv (Fin (5 / 10)) (xsub (Fin 1) (Fin (5 / 10)))) = Fin 0.
Proof.
  unfold xsub. simpl. rewrite decide_False by lra.
  replace (5 / 10 / (1 + - (5 / 10))) with 1 by field.
  unfold xlog. rewrite decide_True by lra. by rewrite ln_1.
Qed.

Lemma sigmoid_zero : sigmoid (Fin 0) = Fin (5 / 10).
Proof.
  unfold sigmoid. simpl. rewrite Ropp_0, exp_0.
  rewrite decide_False by (pose proof (small_le_dbl_max 1); lra). simpl.
  rewrite decide_False by lra. f_equal. field.
Qed.

Lemma cell_belief_zero : cell_belief (Fin 0) = Fin (5 / 10).
Proof.
  rewrite cell_belief_finite
    by (rewrite exp_0; apply small_le_dbl_max; lra).
  rewrite exp_0. f_equal. field.
Qed.

Section simulation_facts.
Variables M N : nat.
Variable true_map : grid R.
Variable meas_phi : list R.
Variable rmax : Z.
Variables alpha beta : R.

Hypothesis Hrect : rectangular true_map.
Hypothesis Hbeams : meas_phi ≠ [].

#[local] Abbreviation fusion_inv := (fusion_inv M N).

Lemma L0_ok :
  ∃ l0,
    L0 M N = Ok l0 ∧ row_lengths l0 = replicate M N ∧
    ∀ i j, (i < M)%nat → (j < N)%nat → lookup2 l0 i j = Some (Fin 0).
Proof.
  unfold L0.
  rewrite ew2_ok by by rewrite row_lengths_ew1. simpl.
  eexists. split; [done|]. split.
  - rewrite row_lengths_ew1, row_lengths_zip_with;
      [|by rewrite row_lengths_ew1].
    apply row_lengths_full.
  - intros i j Hi Hj. rewrite lookup2_ew1.
    assert (Hm : lookup2 (m_init M N) i j = Some (Fin (5 / 10))).
    { unfold m_init. rewrite lookup2_full. by rewrite decide_True. }
    rewrite (lookup2_zip_with xdiv _ _ i j (Fin (5 / 10))
               (xsub (Fin 1) (Fin (5 / 10))) Hm);
      [|by rewrite lookup2_ew1, Hm].
    rewrite <- prior_log_odds. reflexivity.
Qed.

Lemma sim_init_ok :
  ∃ st,
    sim_init M N = Ok st ∧ fusion_inv st ∧
    ∀ i j, (i < M)%nat → (j < N)%nat →
      lookup2 (st_L st) i j = Some (Fin 0).
Proof.
  destruct L0_ok as (l0 & Hl0 & Hs & Hc).
  unfold sim_init. rewrite Hl0. simpl. eexists. split; [done|].
  split; [|done]. split; [done|]. split; [apply row_lengths_full|].
  simpl. intros i j l Hl.
  assert (Hij : (i < M ∧ j < N)%nat).
  { apply (lookup2_is_Some l0 M N i j Hs). by eexists. }
  rewrite Hc in Hl by tauto. injection Hl as <-. split; [done|].
  rewrite cell_belief_zero.
  unfold m_init. rewrite lookup2_full. by rewrite decide_True.
Qed.

(** One iteration, from a state whose log-odds grid has the shape (M, N)
    and holds reals or [-inf]: no exception, the invariant holds afterwards,
    and each cell is updated from the value of the inverse model at that
    cell. *)
Lemma sim_step_cells (st : sim_state) (X : R * R * R) :
  row_lengths (st_L st) = replicate M N →
  (∀ i j l, lookup2 (st_L st) i j = Some l → low_or_finite l) →
  ∃ meas_r invmod st',
    get_ranges true_map X meas_phi rmax = Ok meas_r ∧
    inverse_scanner M N M N X.1.1 X.1.2 X.2
      meas_phi meas_r (IZR rmax) alpha beta = Ok invmod ∧
    sim_step M N true_map meas_phi rmax alpha beta st X = Ok st' ∧
    fusion_inv st' ∧
    ∀ i j p l,
      lookup2 invmod i j = Some p → lookup2 (st_L st) i j = Some l →
      lookup2 (st_L st') i j = Some (cell_log_odds (Fin p) l (Fin 0)) ∧
      lookup2 (st_m st') i j
      = Some (cell_belief (cell_log_odds (Fin p) l (Fin 0))).
Proof.
  intros HsL Hcells.
  pose proof (get_ranges_spec true_map X meas_phi rmax Hrect) as Hscan.
  destruct (inverse_scanner_ok M N M N X.1.1 X.1.2 X.2 meas_phi
    (beam_range true_map X rmax <$> meas_phi) (IZR rmax) alpha beta)
    as [invmod Hinv]; [done|by rewrite length_fmap|lia|lia|].
  destruct L0_ok as (l0 & Hl0 & Hsl0 & Hcl0).
  pose proof (inverse_scanner_result _ _ _ _ _ _ _ _ _ _ _ _ _ Hinv)
    as [Hsinv Hvals].
  destruct (log_odds_update_cells (ew1 Fin invmod) (st_L st) l0)
    as (L' & m' & Hupd & HsL' & Hsm' & Hnew).
  { rewrite row_lengths_ew1. congruence. }
  { congruence. }
  exists (beam_range true_map X rmax <$> meas_phi), invmod, (SimState L' m').
  split; [done|]. split; [done|].
  assert (Hnew' : ∀ i j p l,
    lookup2 invmod i j = Some p → lookup2 (st_L st) i j = Some l →
    lookup2 L' i j = Some (cell_log_odds (Fin p) l (Fin 0)) ∧
    lookup2 m' i j = Some (cell_belief (cell_log_odds (Fin p) l (Fin 0)))).
  { intros i j p l Hp Hl.
    assert (Hij : (i < M ∧ j < N)%nat).
    { apply (lookup2_is_Some invmod M N i j Hsinv). by eexists. }
    apply Hnew; [by rewrite lookup2_ew1, Hp|done|].
    apply Hcl0; tauto. }
  split.
  { unfold sim_step. rewrite Hscan. simpl. rewrite Hinv. simpl.
    rewrite Hl0. simpl. by rewrite Hupd. }
  split; [|done].
  split; [simpl; congruence|]. split; [simpl; congruence|]. simpl.
  intros i j l' Hl'.
  assert (Hij : (i < M ∧ j < N)%nat).
  { apply (lookup2_is_Some L' M N i j); [congruence|by eexists]. }
  destruct (proj2 (lookup2_is_Some invmod M N i j Hsinv) Hij) as [p Hp].
  destruct (proj2 (lookup2_is_Some (st_L st) M N i j HsL) Hij) as [l Hl].
  destruct (Hnew' i j p l Hp Hl) as [HL Hm].
  rewrite HL in Hl'. injection Hl' as <-.
  split; [|done].
  apply cell_log_odds_low; [|by apply (Hcells i j l)].
  by apply (inverse_scanner_values _ _ _ _ _ _ _ _ _ _ _ _ _ i j p Hinv).
Qed.

Lemma fusion_inv_log_odds (st : sim_state) :
  fusion_inv st →
  row_lengths (st_L st) = replicate M N ∧
  ∀ i j l, lookup2 (st_L st) i j = Some l → low_or_finite l.
Proof.
  intros (HsL & _ & Hcells). split; [done|].
  intros i j l Hl. by destruct (Hcells i j l Hl).
Qed.


Lemma sim_run_inv (poses : list (R * R * R)) :
  ∃ st,
    sim_run M N true_map meas_phi rmax alpha beta poses = Ok st ∧
    fusion_inv st.
Proof.
  destruct sim_init_ok as (st0 & Hinit & Hst0 & _).
  unfold sim_run. rewrite Hinit. simpl.
  apply (for_each_ok _ (λ _ st, fusion_inv st)); [done|].
  intros done X rest t _ Ht.
  destruct (fusion_inv_log_odds t Ht) as [HsL Hlow].
  destruct (sim_step_cells t X HsL Hlow)
    as (mr & invmod & st' & _ & _ & Hs & Hi & _).
  by exists st'.
Qed.
End simulation_facts.

Lemma exp_monotone (a b : R) : a <= b → exp a <= exp b.
Proof.
  intros [H | ->]; [|lra]. left. by apply exp_increasing.
Qed.

Lemma sigmoid_finite (l : R) :
  exp (- l) <= dbl_max → sigmoid (Fin l) = Fin (1 / (1 + exp (- l))).
Proof.
  intros Hl. unfold sigmoid. simpl. pose proof (exp_pos (- l)).
  rewrite decide_False by lra. simpl. by rewrite decide_False by lra.
Qed.

Lemma logit_occupied : ln (p_occupied / (1 - p_occupied)) = ln (7 / 3).
Proof. unfold p_occupied. f_equal. field. Qed.

Lemma logit_free : ln (p_free / (1 - p_free)) = - ln (7 / 3).
Proof.
  unfold p_free. replace (3 / 10 / (1 - 3 / 10)) with (/ (7 / 3)) by field.
  apply ln_Rinv. lra.
Qed.

Lemma logit_unknown : ln (p_unknown / (1 - p_unknown)) = 0.
Proof.
  unfold p_unknown.
  replace (5 / 10 / (1 - 5 / 10)) with 1 by field. apply ln_1.
Qed.

Lemma logit_step_pos : 0 < ln (7 / 3).
Proof. rewrite <- ln_1. apply ln_increasing; lra. Qed.

Lemma exp_steps (n : nat) : exp (INR n * ln (7 / 3)) = (7 / 3) ^ n.
Proof. rewrite exp_INR_mult, exp_ln by lra. done. Qed.

(** Up to 837 steps of size ln (7 / 3) keep [np.exp] below the largest
    double; the 838th step on one side does not. *)
Lemma exp_steps_no_overflow (n : nat) (r : R) :
  (n <= 837)%nat →
  - (INR n * ln (7 / 3)) <= r <= INR n * ln (7 / 3) →
  exp r <= dbl_max ∧ exp (- r) <= dbl_max.
Proof.
  intros Hn Hr. pose proof logit_step_pos as Hc.
  assert (Hle : INR n <= INR 837) by by apply le_INR.
  assert (Hb : INR n * ln (7 / 3) <= INR 837 * ln (7 / 3)) by nra.
  pose proof odds_pow_837 as Hmax. rewrite <- exp_steps in Hmax.
  split; (etrans; [apply exp_monotone|exact Hmax]); lra.
Qed.

Lemma exp_steps_overflow (n : nat) :
  (838 <= n)%nat → dbl_max < exp (INR n * ln (7 / 3)).
Proof.
  intros Hn. rewrite exp_steps.
  eapply Rlt_le_trans; [apply odds_pow_838|].
  apply Rle_pow; [lra|done].
Qed.

Lemma cell_log_odds_zero (l l0 : R) :
  cell_log_odds (Fin 0) (Fin l) (Fin l0) = NInf.
Proof.
  unfold cell_log_odds, xsub. simpl. rewrite decide_False by lra.
  replace (0 / (1 + - 0)) with 0 by (field; lra).
  unfold xlog. rewrite decide_False by lra. by rewrite decide_True.
Qed.

Lemma cell_belief_ninf : cell_belief NInf = Fin 0.
Proof.
  unfold cell_belief. simpl. rewrite decide_False by lra. f_equal. lra.
Qed.

Lemma cell_log_odds_ninf (p l0 : R) :
  p = 0 ∨ p = p_free ∨ p = p_unknown ∨ p = p_occupied →
  cell_log_odds (Fin p) NInf (Fin l0) = NInf.
Proof.
  intros Hp.
  pose proof (cell_log_odds_low p NInf l0 Hp I) as Hlow.
  unfold cell_log_odds, xsub in *.
  destruct (xlog _) as [r| | |]; simpl in *; done.
Qed.

(** The three labels move a finite log-odds by ln (7 / 3) up, by as much
    down, or not at all. *)
Lemma cell_log_odds_label (p l : R) :
  p = p_free ∨ p = p_unknown ∨ p = p_occupied →
  ∃ l', cell_log_odds (Fin p) (Fin l) (Fin 0) = Fin l' ∧
    (p = p_occupied → l' = l + ln (7 / 3)) ∧
    (p = p_free → l' = l - ln (7 / 3)) ∧
    (p = p_unknown → l' = l).
Proof.
  intros Hp. eexists. split.
  { apply cell_log_odds_finite.
    destruct Hp as [-> | [-> | ->] ]; real_cases. }
  repeat split.
  - intros ->. rewrite logit_occupied. lra.
  - intros ->. rewrite logit_free. lra.
  - intros ->. rewrite logit_unknown. lra.
Qed.

(** After n iterations every finite log-odds lies within n steps of
    ln (7 / 3) of the prior's 0. *)
Lemma sim_run_bounded (M N : nat) (true_map : grid R) (meas_phi : list R)
    (rmax : Z) (alpha beta : R) (poses : list (R * R * R)) :
  rectangular true_map → meas_phi ≠ [] →
  ∃ st,
    sim_run M N true_map meas_phi rmax alpha beta poses = Ok st ∧
    fusion_inv M N st ∧
    ∀ i j r, lookup2 (st_L st) i j = Some (Fin r) →
      - (INR (length poses) * ln (7 / 3)) <= r
      <= INR (length poses) * ln (7 / 3).
Proof.
  intros Hrect Hbeams.
  destruct (sim_init_ok M N) as (st0 & Hinit & Hst0 & HL0).
  unfold sim_run. rewrite Hinit. simpl.
  apply (for_each_ok _ (λ done st,
    fusion_inv M N st ∧
    ∀ i j r, lookup2 (st_L st) i j = Some (Fin r) →
      - (INR (length done) * ln (7 / 3)) <= r
      <= INR (length done) * ln (7 / 3))).
  - split; [done|]. intros i j r Hr.
    destruct (fusion_inv_log_odds M N st0 Hst0) as [HsL _].
    assert (Hij : (i < M ∧ j < N)%nat).
    { apply (lookup2_is_Some (st_L st0) M N i j HsL). by eexists. }
    rewrite HL0 in Hr by tauto. injection Hr as <-. simpl. lra.
  - intros done X rest t _ [Ht Hb].
    destruct (fusion_inv_log_odds M N t Ht) as [HsL Hlow].
    destruct (sim_step_cells M N true_map meas_phi rmax alpha beta
                Hrect Hbeams t X HsL Hlow)
      as (mr & invmod & st' & _ & Himod & Hs & Hi & Hcells).
    exists st'. split; [done|]. split; [done|]. intros i j r' Hr'.
    destruct (fusion_inv_log_odds M N st' Hi) as [HsL' _].
    pose proof (inverse_scanner_result _ _ _ _ _ _ _ _ _ _ _ _ _ Himod)
      as [Hsi _].
    assert (Hij : (i < M ∧ j < N)%nat).
    { apply (lookup2_is_Some (st_L st') M N i j HsL'). by eexists. }
    destruct (proj2 (lookup2_is_Some invmod M N i j Hsi) Hij) as [p Hp].
    destruct (proj2 (lookup2_is_Some (st_L t) M N i j HsL) Hij) as [l Hl].
    destruct (Hcells i j p l Hp Hl) as [HL' _].
    rewrite HL' in Hr'. injection Hr' as Hr'.
    pose proof (inverse_scanner_values _ _ _ _ _ _ _ _ _ _ _ _ _ i j p
                  Himod Hp) as Hval.
    pose proof (Hlow i j l Hl) as Hlowl.
    destruct l as [r| | |]; try done.
    + destruct Hval as [-> | Hval];
        [by rewrite cell_log_odds_zero in Hr'|].
      destruct (cell_log_odds_label p r Hval)
        as (l' & Hl' & Hocc & Hfree & Hunk).
      rewrite Hl' in Hr'. injection Hr' as ->.
      specialize (Hb i j r Hl).
      rewrite length_app, Nat.add_1_r, S_INR.
      pose proof logit_step_pos as Hc.
      destruct Hval as [Hv | [Hv | Hv] ];
        [specialize (Hfree Hv)|specialize (Hunk Hv)|specialize (Hocc Hv)];
        lra.
    + by rewrite cell_log_odds_ninf in Hr'.
Qed.

Lemma for_each_app {A S} (f : S → A → result S) (s : S) (l k : list A) :
  for_each f s (l ++ k) = s' ← for_each f s l; for_each f s' k.
Proof.
  revert s. induction l as [|a l IH]; intros s; simpl; [done|].
  destruct (f s a) as [s'|e]; simpl; [apply IH|done].
Qed.

Lemma sim_run_snoc (M N : nat) (true_map : grid R) (meas_phi : list R)
    (rmax : Z) (alpha beta : R) (poses : list (R * R * R)) (X : R * R * R) :
  sim_run M N true_map meas_phi rmax alpha beta (poses ++ [X])
  = st ← sim_run M N true_map meas_phi rmax alpha beta poses;
    sim_step M N true_map meas_phi rmax alpha beta st X.
Proof.
  unfold sim_run. destruct (sim_init M N) as [st0|e]; simpl; [|done].
  rewrite for_each_app.
  destruct (for_each _ st0 poses) as [st|e]; simpl; [|done].
  by destruct (sim_step _ _ _ _ _ _ _ st X).
Qed.

(** The log-odds after n iterations at one pose. *)
Lemma stationary_run (M N : nat) (true_map : grid R) (meas_phi : list R)
    (rmax : Z) (alpha beta : R) (X : R * R * R)
    (meas_r : list R) (invmod : grid R) (n : nat) :
  rectangular true_map → meas_phi ≠ [] →
  get_ranges true_map X meas_phi rmax = Ok meas_r →
  inverse_scanner M N M N X.1.1 X.1.2 X.2
    meas_phi meas_r (IZR rmax) alpha beta = Ok invmod →
  ∃ st,
    sim_run M N true_map meas_phi rmax alpha beta (replicate n X) = Ok st ∧
    fusion_inv M N st ∧
    ∀ i j p, lookup2 invmod i j = Some p → p ≠ 0 →
      lookup2 (st_L st) i j = Some (Fin (INR n * ln (p / (1 - p)))).
Proof.
  intros Hrect Hbeams Hscan Himod.
  pose proof (inverse_scanner_result _ _ _ _ _ _ _ _ _ _ _ _ _ Himod)
    as [Hsi _].
  induction n as [|n IH].
  - destruct (sim_init_ok M N) as (st0 & Hinit & Hinv0 & HL0).
    exists st0. split.
    { unfold sim_run. by rewrite Hinit. }
    split; [done|]. intros i j p Hp _.
    assert (Hij : (i < M ∧ j < N)%nat).
    { apply (lookup2_is_Some invmod M N i j Hsi). by eexists. }
    rewrite HL0 by tauto. simpl. do 2 f_equal. lra.
  - destruct IH as (st & Hrun & Hinv & HL).
    destruct (fusion_inv_log_odds M N st Hinv) as [HsL Hlow].
    destruct (sim_step_cells M N true_map meas_phi rmax alpha beta
                Hrect Hbeams st X HsL Hlow)
      as (mr & invmod' & st' & Hscan' & Himod' & Hstep & Hinv' & Hcells).
    rewrite Hscan in Hscan'. injection Hscan' as <-.
    rewrite Himod in Himod'. injection Himod' as <-.
    exists st'. split.
    { rewrite replicate_S_end, sim_run_snoc, Hrun. exact Hstep. }
    split; [done|]. intros i j p Hp Hp0.
    destruct (Hcells i j p _ Hp (HL i j p Hp Hp0)) as [HL' _].
    rewrite HL'. rewrite cell_log_odds_finite.
    + rewrite S_INR. do 2 f_equal. lra.
    + destruct (inverse_scanner_values _ _ _ _ _ _ _ _ _ _ _ _ _ i j p
                  Himod Hp) as [-> | [-> | [-> | ->] ] ]; real_cases.
Qed.

(** C3 (amended): on a rectangular map and with at least one bearing the
    loop runs over every sequence of poses without an exception, and in the
    state it reaches every cell (i, j) whose log-odds is -inf or a real at
    which neither exp (log_odds) nor exp (- log_odds) exceeds the largest
    double has belief 1 / (1 + exp (- log_odds)); after at most 837
    iterations this is every cell. *)
Theorem belief_is_sigmoid_of_log_odds (M N : nat) (true_map : grid R)
    (meas_phi : list R) (rmax : Z) (alpha beta : R)
    (poses : list (R * R * R)) :
  rectangular true_map → meas_phi ≠ [] →
  ∃ st,
    sim_run M N true_map meas_phi rmax alpha beta poses = Ok st ∧
    ∀ i j, (i < M)%nat → (j < N)%nat →
      ∃ l,
        lookup2 (st_L st) i j = Some l ∧
        ((length poses <= 837)%nat → in_exp_range l) ∧
        (in_exp_range l →
         ∃ b, lookup2 (st_m st) i j = Some (Fin b) ∧ sigmoid l = Fin b).
Proof.
  intros Hrect Hbeams.
  destruct (sim_run_bounded M N true_map meas_phi rmax alpha beta poses
              Hrect Hbeams) as (st & Hrun & (HsL & Hsm & Hcells) & Hb).
  exists st. split; [done|]. intros i j Hi Hj.
  destruct (proj2 (lookup2_is_Some (st_L st) M N i j HsL) (conj Hi Hj))
    as [l Hl].
  destruct (Hcells i j l Hl) as [Hlow Hm].
  exists l. split; [done|]. split.
  - intros Hlen. destruct l as [r| | |]; try done.
    by apply (exp_steps_no_overflow (length poses)); [|apply (Hb i j)].
  - intros Hrange.
    destruct (cell_belief_sigmoid l Hrange) as (b & Hbel & Hsig).
    exists b. by rewrite Hm, Hbel.
Qed.

Lemma belief_is_sigmoid_of_log_odds_witness :
  ∃ st,
    sim_run 10 10 free_map [0] 3 1 (5 / 100) [(5, 2, PI / 2)] = Ok st ∧
    ∀ i j, (i < 10)%nat → (j < 10)%nat →
      ∃ l,
        lookup2 (st_L st) i j = Some l ∧
        ((length [(5, 2, PI / 2)%R] <= 837)%nat → in_exp_range l) ∧
        (in_exp_range l →
         ∃ b, lookup2 (st_m st) i j = Some (Fin b) ∧ sigmoid l = Fin b).
Proof.
  apply (belief_is_sigmoid_of_log_odds 10 10 free_map [0] 3 1 (5 / 100)
           [(5, 2, PI / 2)]).
  - apply free_map_rectangular.
  - discriminate.
Defined.

(** On the map whose only obstacle is the cell (5, 5), 838 iterations at
    the pose (5, 0, PI / 2) leave at that cell a finite log-odds l whose
    logistic function 1 / (1 + exp (- l)) is a real, and the belief NaN:
    the belief is then not the logistic function of the log-odds. *)
Lemma belief_not_sigmoid_after_overflow :
  ∃ st,
    sim_run 10 10 obstacle_map [0] 10 1 (5 / 100)
      (replicate 838 (5, 0, PI / 2)) = Ok st ∧
    lookup2 (st_L st) 5 5 = Some (Fin (INR 838 * ln (7 / 3))) ∧
    sigmoid (Fin (INR 838 * ln (7 / 3)))
    = Fin (1 / (1 + exp (- (INR 838 * ln (7 / 3))))) ∧
    lookup2 (st_m st) 5 5 = Some NaN.
Proof.
  destruct (inverse_scanner_ok 10 10 10 10 5 0 (PI / 2) [0] [5] 10 1
              (5 / 100)) as [invmod Himod]; [done|simpl; lia|lia|lia|].
  assert (Hcell : lookup2 invmod 5 5 = Some p_occupied).
  { rewrite (column_cell_ahead _ _ _ _ _ _ _ Himod) by (simpl; (lia || lra)).
    rewrite classify_occupied; [done|simpl; real_cases..]. }
  assert (Hbeams : [0] ≠ []) by discriminate.
  destruct (stationary_run 10 10 obstacle_map [0] 10 1 (5 / 100)
              (5, 0, PI / 2) [5] invmod 838 obstacle_map_rectangular Hbeams
              get_ranges_obstacle_map Himod) as (st & Hrun & Hinv & HL).
  assert (Hp0 : p_occupied ≠ 0) by (unfold p_occupied; lra).
  specialize (HL 5%nat 5%nat p_occupied Hcell Hp0).
  rewrite logit_occupied in HL.
  destruct Hinv as (_ & _ & Hcells).
  destruct (Hcells _ _ _ HL) as [_ Hm].
  rewrite cell_belief_overflow in Hm by (apply exp_steps_overflow; lia).
  exists st. split; [done|]. split; [exact HL|].
  split; [|done]. apply sigmoid_finite.
  pose proof (exp_steps_overflow 838 (Nat.le_refl _)) as Hbig.
  pose proof (exp_pos (INR 838 * ln (7 / 3))) as Hpos.
  rewrite exp_Ropp.
  apply small_le_dbl_max.
  assert (Hone : 1 <= exp (INR 838 * ln (7 / 3))).
  { destruct dbl_max_bounds as [Hlo _].
    assert (H1 : 1 <= 2 ^ 1023) by (apply pow_R1_Rle; lra). lra. }
  assert (Hinv1 : / exp (INR 838 * ln (7 / 3)) <= / 1)
    by (apply Rinv_le_contravar; lra).
  rewrite Rinv_1 in Hinv1. lra.
Qed.

(** C4: one fusion step from the uniform prior on the 10 by 10 map without
    obstacles, at the pose (5, 2, PI / 2) with the single bearing 0,
    rmax = 3, alpha = 1 and beta = 0.05: the inverse model holds 0 at the
    cell (5, 5), its log-odds becomes -inf and its belief exactly 0. *)
Theorem belief_reaches_zero :
  ∃ st,
    sim_run 10 10 free_map [0] 3 1 (5 / 100) [(5, 2, PI / 2)] = Ok st ∧
    lookup2 (st_L st) 5 5 = Some NInf ∧
    lookup2 (st_m st) 5 5 = Some (Fin 0).
Proof.
  assert (Hbeams : [0] ≠ @nil R) by discriminate.
  destruct (sim_init_ok 10 10) as (st0 & Hinit & Hinv0 & HL0).
  destruct (fusion_inv_log_odds 10 10 st0 Hinv0) as [HsL0 Hlow0].
  destruct (sim_step_cells 10 10 free_map [0] 3 1 (5 / 100)
              free_map_rectangular Hbeams st0 (5, 2, PI / 2) HsL0 Hlow0)
    as (mr & invmod & st' & Hscan & Hinvmod & Hstep & _ & Hcells).
  rewrite get_ranges_free_map in Hscan. injection Hscan as <-.
  destruct zero_cell_scan as (m & Hm & Hzero).
  simpl in Hinvmod. rewrite Hm in Hinvmod. injection Hinvmod as <-.
  exists st'. split.
  { unfold sim_run. rewrite Hinit. simpl. by rewrite Hstep. }
  destruct (Hcells 5%nat 5%nat 0 (Fin 0) Hzero) as [HL Hb].
  { apply HL0; lia. }
  rewrite cell_log_odds_zero in HL, Hb.
  by rewrite cell_belief_ninf in Hb.
Qed.

(** * Further properties *)

(** ** The range scanner *)

Lemma find_py_range_spec (f : Z → bool) (lo hi : Z) :
  match find f (py_range lo hi) with
  | Some r =>
      (lo <= r < hi)%Z ∧ f r = true ∧ ∀ r', (lo <= r' < r)%Z → f r' = false
  | None => ∀ r', (lo <= r' < hi)%Z → f r' = false
  end.
Proof.
  remember (Z.to_nat (hi - lo)) as n eqn:Hn.
  revert lo Hn. induction n as [|n IH]; intros lo Hn.
  - rewrite py_range_nil by lia. simpl. intros r' Hr'. lia.
  - rewrite py_range_cons by lia. simpl.
    destruct (f lo) eqn:Hlo.
    + split; [lia|]. split; [done|]. intros r' Hr'. lia.
    + specialize (IH (lo + 1)%Z).
      destruct (find f (py_range (lo + 1) hi)) as [r|].
      * destruct IH as (Hr & Hf & Hbefore); [lia|].
        split; [lia|]. split; [done|]. intros r' Hr'.
        destruct (decide (r' = lo)) as [->|Hne]; [done|].
        apply Hbefore. lia.
      * intros r' Hr'.
        destruct (decide (r' = lo)) as [->|Hne]; [done|].
        apply IH; lia.
Qed.

(** X1: on a rectangular map [get_ranges] returns one reading per bearing,
    and every reading is an integer: rmax itself or a step of 1..rmax. *)
Theorem get_ranges_readings (true_map : grid R) (X : R * R * R)
    (meas_phi : list R) (rmax : Z) :
  rectangular true_map →
  ∃ meas_r,
    get_ranges true_map X meas_phi rmax = Ok meas_r ∧
    length meas_r = length meas_phi ∧
    ∀ v, v ∈ meas_r → ∃ r, v = IZR r ∧ (r = rmax ∨ 1 <= r <= rmax)%Z.
Proof.
  intros Hrect. rewrite get_ranges_spec by done.
  eexists. split; [done|]. split; [by rewrite length_fmap|].
  intros v Hv. apply list_elem_of_fmap in Hv as (phi & -> & _).
  unfold beam_range.
  pose proof (find_py_range_spec (stops true_map X phi) 1 (rmax + 1)) as Hf.
  destruct (find _ _) as [r|]; simpl.
  - exists r. split; [done|]. right. lia.
  - exists rmax. split; [done|]. by left.
Qed.

Lemma get_ranges_readings_witness :
  ∃ meas_r,
    get_ranges obstacle_map (5, 0, PI / 2) [0] 10 = Ok meas_r ∧
    length meas_r = length [0] ∧
    ∀ v, v ∈ meas_r → ∃ r, v = IZR r ∧ (r = 10 ∨ 1 <= r <= 10)%Z.
Proof.
  apply (get_ranges_readings obstacle_map (5, 0, PI / 2) [0] 10).
  apply obstacle_map_rectangular.
Defined.

(** X2: the reading of a bearing is the first step at which the candidate
    cell fails the bounds test or holds an obstacle, and rmax when no step
    of 1..rmax does. *)
Theorem get_ranges_first_stop (true_map : grid R) (X : R * R * R)
    (meas_phi : list R) (rmax : Z) :
  rectangular true_map →
  ∃ meas_r,
    get_ranges true_map X meas_phi rmax = Ok meas_r ∧
    ∀ i phi, meas_phi !! i = Some phi →
      ∃ r, meas_r !! i = Some (IZR r) ∧
        (((1 <= r <= rmax)%Z ∧ stops true_map X phi r = true ∧
          ∀ r', (1 <= r' < r)%Z → stops true_map X phi r' = false) ∨
         (r = rmax ∧
          ∀ r', (1 <= r' <= rmax)%Z → stops true_map X phi r' = false)).
Proof.
  intros Hrect. rewrite get_ranges_spec by done.
  eexists. split; [done|]. intros i phi Hphi.
  rewrite list_lookup_fmap, Hphi. simpl. unfold beam_range.
  pose proof (find_py_range_spec (stops true_map X phi) 1 (rmax + 1)) as Hf.
  destruct (find _ _) as [r|]; simpl.
  - exists r. split; [done|]. left.
    destruct Hf as (Hr & Hs & Hb). split; [lia|]. by split.
  - exists rmax. split; [done|]. right. split; [done|].
    intros r' Hr'. apply Hf. lia.
Qed.

Lemma get_ranges_first_stop_witness :
  ∃ meas_r,
    get_ranges obstacle_map (5, 0, PI / 2) [0] 10 = Ok meas_r ∧
    ∀ i phi, [0] !! i = Some phi →
      ∃ r, meas_r !! i = Some (IZR r) ∧
        (((1 <= r <= 10)%Z ∧
          stops obstacle_map (5, 0, PI / 2) phi r = true ∧
          ∀ r', (1 <= r' < r)%Z →
            stops obstacle_map (5, 0, PI / 2) phi r' = false) ∨
         (r = 10%Z ∧
          ∀ r', (1 <= r' <= 10)%Z →
            stops obstacle_map (5, 0, PI / 2) phi r' = false)).
Proof.
  apply (get_ranges_first_stop obstacle_map (5, 0, PI / 2) [0] 10).
  apply obstacle_map_rectangular.
Defined.

Lemma for_each_unchanged_in {A S} (f : S → A → result S) (s : S)
    (l : list A) :
  (∀ a, a ∈ l → f s a = Ok s) → for_each f s l = Ok s.
Proof.
  induction l as [|a l IH]; intros H; simpl; [done|].
  rewrite (H a) by left. simpl. apply IH. intros b Hb. apply H. by right.
Qed.

(** X3: with rmax <= 0 the marching loop has no step: on every map (a
    two-dimensional array), from every pose, every reading is rmax. *)
Theorem get_ranges_no_step (true_map : grid R) (X : R * R * R)
    (meas_phi : list R) (rmax : Z) :
  rectangular true_map → (rmax <= 0)%Z →
  get_ranges true_map X meas_phi rmax
  = Ok (replicate (length meas_phi) (IZR rmax)).
Proof.
  intros _ Hr. unfold get_ranges. apply for_each_unchanged_in.
  intros i Hi. apply elem_of_seq in Hi. unfold scan_beam.
  rewrite getitem_nat.
  destruct (lookup_lt_is_Some_2 meas_phi i) as [phi ->]; [lia|]. simpl.
  by rewrite py_range_nil by lia.
Qed.

Lemma get_ranges_no_step_witness :
  get_ranges obstacle_map (5, 0, PI / 2) [0; 1] 0
  = Ok (replicate (length [0; 1]) 0).
Proof.
  apply (get_ranges_no_step obstacle_map (5, 0, PI / 2) [0; 1] 0).
  - apply obstacle_map_rectangular.
  - lia.
Defined.

Lemma py_round_error (v : R) : Rabs (IZR (py_round v) - v) <= 1 / 2.
Proof.
  unfold py_round. pose proof (Zfloor_bound v) as Hb.
  repeat case_decide; try case_match; rewrite ?plus_IZR;
    unfold Rabs; destruct (Rcase_abs _); lra.
Qed.

(** X4: the candidate cell of a step lies within half a cell, in each
    coordinate, of the point at distance r along the beam. *)
Theorem candidate_near_beam (X : R * R * R) (phi : R) (r : Z) :
  Rabs (IZR (candidate X phi r).1
        - (pose_x X + IZR r * cos (pose_theta X + phi))) <= 1 / 2 ∧
  Rabs (IZR (candidate X phi r).2
        - (pose_y X + IZR r * sin (pose_theta X + phi))) <= 1 / 2.
Proof. split; apply py_round_error. Qed.

Lemma find_py_range_earlier (f g : Z → bool) (lo hi r : Z) :
  (∀ z, f z = true → g z = true) →
  find f (py_range lo hi) = Some r →
  ∃ r', find g (py_range lo hi) = Some r' ∧ (r' <= r)%Z.
Proof.
  intros Hfg Hf.
  pose proof (find_py_range_spec f lo hi) as Hsf. rewrite Hf in Hsf.
  destruct Hsf as (Hr & Hfr & _).
  pose proof (find_py_range_spec g lo hi) as Hsg.
  destruct (find g (py_range lo hi)) as [r'|].
  - exists r'. split; [done|]. destruct Hsg as (Hr' & _ & Hb).
    destruct (decide (r' <= r)%Z) as [|Hgt]; [done|].
    specialize (Hfg r Hfr). rewrite Hb in Hfg by lia. done.
  - specialize (Hfg r Hfr). rewrite Hsg in Hfg by lia. done.
Qed.

Lemma stops_more_obstacles (true_map map' : grid R) (X : R * R * R)
    (phi : R) (r : Z) :
  np_shape map' = np_shape true_map →
  (∀ i j, lookup2 true_map i j = Some 1 → lookup2 map' i j = Some 1) →
  stops true_map X phi r = true → stops map' X phi r = true.
Proof.
  intros Hshape Hmore. unfold stops.
  assert (Hoff : ∀ c, off_map map' c = off_map true_map c).
  { intros c. unfold off_map, map_rows, map_cols. by rewrite Hshape. }
  rewrite Hoff.
  destruct (off_map true_map (candidate X phi r)); [done|]. simpl.
  intros Hc. apply bool_decide_eq_true in Hc.
  apply bool_decide_eq_true. by apply Hmore.
Qed.

(** X5: obstacles added to a map never lengthen a reading: if every
    obstacle cell of one map is an obstacle cell of a second map of the same
    shape, each reading on the second map is at most the reading on the
    first. *)
Theorem get_ranges_more_obstacles (true_map map' : grid R) (X : R * R * R)
    (meas_phi : list R) (rmax : Z) :
  rectangular true_map → rectangular map' →
  np_shape map' = np_shape true_map →
  (∀ i j, lookup2 true_map i j = Some 1 → lookup2 map' i j = Some 1) →
  ∃ meas_r meas_r',
    get_ranges true_map X meas_phi rmax = Ok meas_r ∧
    get_ranges map' X meas_phi rmax = Ok meas_r' ∧
    ∀ i v v', meas_r !! i = Some v → meas_r' !! i = Some v' → v' <= v.
Proof.
  intros Hrect Hrect' Hshape Hmore. rewrite !get_ranges_spec by done.
  eexists _, _. split; [done|]. split; [done|].
  intros i v v'. rewrite !list_lookup_fmap.
  destruct (meas_phi !! i) as [phi|]; simpl; [|done].
  intros [= <-] [= <-]. unfold beam_range. apply IZR_le.
  destruct (find (stops true_map X phi) _) as [r|] eqn:Hf; simpl.
  - destruct (find_py_range_earlier _ (stops map' X phi) _ _ _
                (λ z, stops_more_obstacles _ _ X phi z Hshape Hmore) Hf)
      as (r' & -> & Hle).
    done.
  - pose proof (find_py_range_spec (stops map' X phi) 1 (rmax + 1)) as Hg.
    destruct (find (stops map' X phi) _) as [r'|]; simpl; [|lia].
    destruct Hg as (Hr' & _). lia.
Qed.

Lemma free_map_no_obstacle (i j : nat) : lookup2 free_map i j ≠ Some 1.
Proof.
  unfold free_map. rewrite lookup2_full. case_decide; [|done].
  intros [= Hv]. lra.
Qed.

Lemma get_ranges_more_obstacles_witness :
  ∃ meas_r meas_r',
    get_ranges free_map (5, 0, PI / 2) [0] 10 = Ok meas_r ∧
    get_ranges obstacle_map (5, 0, PI / 2) [0] 10 = Ok meas_r' ∧
    ∀ i v v', meas_r !! i = Some v → meas_r' !! i = Some v' → v' <= v.
Proof.
  apply (get_ranges_more_obstacles free_map obstacle_map (5, 0, PI / 2)
           [0] 10).
  - apply free_map_rectangular.
  - apply obstacle_map_rectangular.
  - reflexivity.
  - intros i j H. by apply free_map_no_obstacle in H.
Defined.

(** ** The inverse sensor model *)

Lemma argmin_from_spec (l p : list R) (best : R) (bi : nat) :
  p !! bi = Some best →
  (∀ v, v ∈ p → best <= v) →
  (∀ k' v', (k' < bi)%nat → p !! k' = Some v' → best < v') →
  ∃ v, (p ++ l) !! argmin_from best bi (length p) l = Some v ∧
    (∀ v', v' ∈ p ++ l → v <= v') ∧
    (∀ k' v', (k' < argmin_from best bi (length p) l)%nat →
       (p ++ l) !! k' = Some v' → v < v').
Proof.
  revert p best bi. induction l as [|a l IH]; intros p best bi Hbi Hmin Hfirst.
  - simpl. rewrite app_nil_r. by exists best.
  - simpl. assert (Hlt : (bi < length p)%nat) by by eapply lookup_lt_Some.
    replace (p ++ a :: l) with ((p ++ [a]) ++ l) by by rewrite <- app_assoc.
    replace (S (length p)) with (length (p ++ [a]))
      by (rewrite length_app; simpl; lia).
    case_decide as Ha.
    + apply IH.
      * by rewrite lookup_app_r, Nat.sub_diag.
      * intros v Hv. apply elem_of_app in Hv as [Hv|Hv].
        -- specialize (Hmin v Hv). lra.
        -- apply list_elem_of_singleton in Hv. subst v. lra.
      * intros k' v' Hk' Hv'. rewrite lookup_app_l in Hv' by done.
        assert (best <= v'); [|lra].
        apply Hmin. by eapply list_elem_of_lookup_2.
    + apply IH.
      * by rewrite lookup_app_l.
      * intros v Hv. apply elem_of_app in Hv as [Hv|Hv].
        -- by apply Hmin.
        -- apply list_elem_of_singleton in Hv. subst v. lra.
      * intros k' v' Hk' Hv'. rewrite lookup_app_l in Hv' by lia.
        by eapply Hfirst.
Qed.

(** X6: the index chosen for the nearest bearing ([np.argmin]) is that of a
    least element, and of the first one among equal least elements. *)
Theorem np_argmin_first_least (l : list R) (k : nat) :
  np_argmin l = Ok k →
  ∃ v, l !! k = Some v ∧
    (∀ v', v' ∈ l → v <= v') ∧
    (∀ k' v', (k' < k)%nat → l !! k' = Some v' → v < v').
Proof.
  destruct l as [|a l]; simpl; [done|]. intros [= <-].
  apply (argmin_from_spec l [a] a 0).
  - done.
  - intros v Hv. apply list_elem_of_singleton in Hv. subst v. lra.
  - intros k' v' Hk'. lia.
Qed.

Lemma np_argmin_first_least_witness :
  ∃ v, [3; 1; 2; 1] !! 1%nat = Some v ∧
    (∀ v', v' ∈ [3; 1; 2; 1] → v <= v') ∧
    (∀ k' v', (k' < 1)%nat → [3; 1; 2; 1] !! k' = Some v' → v < v').
Proof.
  apply (np_argmin_first_least [3; 1; 2; 1] 1).
  unfold np_argmin. simpl.
  rewrite (decide_True (P := 1 < 3)) by lra.
  rewrite (decide_False (P := 2 < 1)) by lra.
  rewrite (decide_False (P := 1 < 1)) by lra.
  reflexivity.
Defined.

Lemma py_mod_range (a b : R) : 0 < b → 0 <= py_mod a b < b.
Proof.
  intros Hb. unfold py_mod. pose proof (Zfloor_bound (a / b)) as [H1 H2].
  assert (Hq : a / b * b = a) by (field; lra).
  split; nra.
Qed.

(** X7: the relative bearing of every cell is normalised into
    [- PI, PI). *)
Theorem cell_bearing_range (x y theta : R) (i j : nat) :
  - PI <= cell_bearing x y theta i j < PI.
Proof.
  unfold cell_bearing. pose proof PI_RGT_0.
  pose proof (py_mod_range
    (atan2 (INR j - y) (INR i - x) - theta + PI) (2 * PI)).
  lra.
Qed.

Lemma cell_decision_inv (x y theta : R) (meas_phi meas_r : list R)
    (rmax alpha beta : R) (i j : nat) (d : option R) :
  cell_decision x y theta meas_phi meas_r rmax alpha beta i j = Ok d →
  ∃ k rk pk,
    np_argmin ((λ b, Rabs (cell_bearing x y theta i j - b)) <$> meas_phi)
      = Ok k ∧
    meas_r !! k = Some rk ∧ meas_phi !! k = Some pk ∧
    d = classify rmax alpha beta
          (cell_range x y i j) (cell_bearing x y theta i j) pk rk.
Proof.
  unfold cell_decision. intros H.
  apply bind_Ok in H as (k & Hk & H). rewrite !getitem_nat in H.
  destruct (meas_r !! k) as [rk|] eqn:Hrk; [|done]. simpl in H.
  destruct (meas_phi !! k) as [pk|] eqn:Hpk; [|done]. simpl in H.
  injection H as <-. by exists k, rk, pk.
Qed.

(** The returned grid, cell by cell, under the conditions that make the
    call return. *)
Lemma inverse_scanner_cells (M N num_rows num_cols : nat) (x y theta : R)
    (meas_phi meas_r : list R) (rmax alpha beta : R) :
  meas_phi ≠ [] → (length meas_phi <= length meas_r)%nat →
  (num_rows <= M)%nat → (num_cols <= N)%nat →
  ∃ m,
    inverse_scanner M N num_rows num_cols x y theta
      meas_phi meas_r rmax alpha beta = Ok m ∧
    row_lengths m = replicate M N ∧
    (∀ i j, (i < M)%nat → (j < N)%nat →
       ¬ (i < num_rows ∧ j < num_cols)%nat → lookup2 m i j = Some 0) ∧
    ∀ i j, (i < num_rows)%nat → (j < num_cols)%nat →
      ∃ k rk pk,
        np_argmin ((λ b, Rabs (cell_bearing x y theta i j - b)) <$> meas_phi)
          = Ok k ∧
        meas_r !! k = Some rk ∧ meas_phi !! k = Some pk ∧
        lookup2 m i j =
          Some (default 0 (classify rmax alpha beta (cell_range x y i j)
                             (cell_bearing x y theta i j) pk rk)).
Proof.
  intros Hne Hlen HM HN.
  destruct (inverse_scanner_ok M N num_rows num_cols x y theta
              meas_phi meas_r rmax alpha beta Hne Hlen HM HN) as [m Hm].
  exists m. split; [done|].
  pose proof (inverse_scanner_result _ _ _ _ _ _ _ _ _ _ _ _ _ Hm)
    as [Hs Hc].
  split; [done|]. split.
  - intros i j Hi Hj Hout.
    destruct (proj2 (lookup2_is_Some m M N i j Hs) (conj Hi Hj)) as [v Hv].
    destruct (Hc i j v Hv) as [_ H0]. rewrite Hv. f_equal. by apply H0.
  - intros i j Hi Hj.
    destruct (cell_decision_ok x y theta meas_phi meas_r rmax alpha beta
                i j Hne Hlen) as [d Hd].
    destruct (cell_decision_inv _ _ _ _ _ _ _ _ _ _ _ Hd)
      as (k & rk & pk & Hk & Hrk & Hpk & ->).
    exists k, rk, pk. split; [done|]. split; [done|]. split; [done|].
    apply (inverse_scanner_cell _ _ _ _ _ _ _ _ _ _ _ _ _ _ _ _ Hm);
      [done|done|lia|lia|done].
Qed.

(** X8: when the loops stay inside the allocated array and every bearing
    has a range, [inverse_scanner] returns a grid of shape (M, N) whose
    cells hold 0, 0.3, 0.5 or 0.7, and 0 at every cell the loops do not
    visit. *)
Theorem inverse_scanner_grid_values (M N num_rows num_cols : nat)
    (x y theta : R) (meas_phi meas_r : list R) (rmax alpha beta : R) :
  meas_phi ≠ [] → (length meas_phi <= length meas_r)%nat →
  (num_rows <= M)%nat → (num_cols <= N)%nat →
  ∃ m,
    inverse_scanner M N num_rows num_cols x y theta
      meas_phi meas_r rmax alpha beta = Ok m ∧
    row_lengths m = replicate M N ∧
    ∀ i j, (i < M)%nat → (j < N)%nat →
      ∃ v, lookup2 m i j = Some v ∧
        (v = 0 ∨ v = p_free ∨ v = p_unknown ∨ v = p_occupied) ∧
        (¬ (i < num_rows ∧ j < num_cols)%nat → v = 0).
Proof.
  intros Hne Hlen HM HN.
  destruct (inverse_scanner_cells M N num_rows num_cols x y theta
              meas_phi meas_r rmax alpha beta Hne Hlen HM HN)
    as (m & Hm & Hs & Hout & Hin).
  exists m. split; [done|]. split; [done|]. intros i j Hi Hj.
  destruct (proj2 (lookup2_is_Some m M N i j Hs) (conj Hi Hj)) as [v Hv].
  exists v. split; [done|]. split.
  - by apply (inverse_scanner_values _ _ _ _ _ _ _ _ _ _ _ _ _ i j v Hm).
  - intros Hnot. rewrite (Hout i j Hi Hj Hnot) in Hv. by injection Hv.
Qed.

Lemma inverse_scanner_grid_values_witness :
  ∃ m,
    inverse_scanner 50 60 2 2 30 30 0 [0] [30] 30 1 (5 / 100) = Ok m ∧
    row_lengths m = replicate 50%nat 60%nat ∧
    ∀ i j, (i < 50)%nat → (j < 60)%nat →
      ∃ v, lookup2 m i j = Some v ∧
        (v = 0 ∨ v = p_free ∨ v = p_unknown ∨ v = p_occupied) ∧
        (¬ (i < 2 ∧ j < 2)%nat → v = 0).
Proof.
  apply (inverse_scanner_grid_values 50 60 2 2 30 30 0 [0] [30] 30 1
           (5 / 100)); [discriminate|simpl; lia|lia|lia].
Defined.

(** X9: every visited cell farther from the pose than rmax is unknown
    (0.5), whatever the scan. *)
Theorem inverse_scanner_beyond_rmax (M N num_rows num_cols : nat)
    (x y theta : R) (meas_phi meas_r : list R) (rmax alpha beta : R) :
  meas_phi ≠ [] → (length meas_phi <= length meas_r)%nat →
  (num_rows <= M)%nat → (num_cols <= N)%nat →
  ∃ m,
    inverse_scanner M N num_rows num_cols x y theta
      meas_phi meas_r rmax alpha beta = Ok m ∧
    ∀ i j, (i < num_rows)%nat → (j < num_cols)%nat →
      rmax < cell_range x y i j → lookup2 m i j = Some p_unknown.
Proof.
  intros Hne Hlen HM HN.
  destruct (inverse_scanner_cells M N num_rows num_cols x y theta
              meas_phi meas_r rmax alpha beta Hne Hlen HM HN)
    as (m & Hm & _ & _ & Hin).
  exists m. split; [done|]. intros i j Hi Hj Hfar.
  destruct (Hin i j Hi Hj) as (k & rk & pk & _ & _ & _ & ->).
  rewrite classify_unknown; [done|]. left.
  pose proof (Rmin_l rmax (rk + alpha / 2)). lra.
Qed.

Lemma inverse_scanner_beyond_rmax_witness :
  ∃ m,
    inverse_scanner 10 10 10 10 5 0 (PI / 2) [0] [3] 3 1 (5 / 100) = Ok m ∧
    ∀ i j, (i < 10)%nat → (j < 10)%nat →
      3 < cell_range 5 0 i j → lookup2 m i j = Some p_unknown.
Proof.
  apply (inverse_scanner_beyond_rmax 10 10 10 10 5 0 (PI / 2) [0] [3] 3 1
           (5 / 100)); [discriminate|simpl; lia|lia|lia].
Defined.

(** X10: a scan without a hit marks nothing occupied: when every range is
    at least rmax, no cell of the returned grid holds 0.7. *)
Theorem inverse_scanner_no_hit_no_occupied (M N num_rows num_cols : nat)
    (x y theta : R) (meas_phi meas_r : list R) (rmax alpha beta : R) :
  meas_phi ≠ [] → (length meas_phi <= length meas_r)%nat →
  (num_rows <= M)%nat → (num_cols <= N)%nat →
  (∀ v, v ∈ meas_r → rmax <= v) →
  ∃ m,
    inverse_scanner M N num_rows num_cols x y theta
      meas_phi meas_r rmax alpha beta = Ok m ∧
    ∀ i j, lookup2 m i j ≠ Some p_occupied.
Proof.
  intros Hne Hlen HM HN Hmax.
  destruct (inverse_scanner_cells M N num_rows num_cols x y theta
              meas_phi meas_r rmax alpha beta Hne Hlen HM HN)
    as (m & Hm & Hs & Hout & Hin).
  exists m. split; [done|]. intros i j Hocc.
  assert (Hij : (i < M ∧ j < N)%nat).
  { apply (lookup2_is_Some m M N i j Hs). by eexists. }
  destruct (decide (i < num_rows ∧ j < num_cols)%nat) as [[Hi Hj]|Hnot].
  - destruct (Hin i j Hi Hj) as (k & rk & pk & _ & Hrk & _ & Hv).
    rewrite Hv in Hocc. injection Hocc as Hocc.
    assert (rmax <= rk) by (apply Hmax; by eapply list_elem_of_lookup_2).
    revert Hocc. unfold classify.
    repeat case_bool_decide; simpl; real_cases.
  - rewrite (Hout i j) in Hocc by tauto. injection Hocc as Hocc.
    revert Hocc. real_cases.
Qed.

Lemma inverse_scanner_no_hit_no_occupied_witness :
  ∃ m,
    inverse_scanner 10 10 10 10 5 2 (PI / 2) [0] [3] 3 1 (5 / 100) = Ok m ∧
    ∀ i j, lookup2 m i j ≠ Some p_occupied.
Proof.
  apply (inverse_scanner_no_hit_no_occupied 10 10 10 10 5 2 (PI / 2) [0] [3]
           3 1 (5 / 100)); [discriminate|simpl; lia|lia|lia|].
  intros v Hv. apply list_elem_of_singleton in Hv. subst v. lra.
Defined.

(** X11: a visited cell whose relative bearing differs from every beam's
    bearing by more than beta/2 lies outside the field of view and is
    unknown (0.5). *)
Theorem inverse_scanner_outside_field_of_view
    (M N num_rows num_cols : nat)
    (x y theta : R) (meas_phi meas_r : list R) (rmax alpha beta : R) :
  meas_phi ≠ [] → (length meas_phi <= length meas_r)%nat →
  (num_rows <= M)%nat → (num_cols <= N)%nat →
  ∃ m,
    inverse_scanner M N num_rows num_cols x y theta
      meas_phi meas_r rmax alpha beta = Ok m ∧
    ∀ i j, (i < num_rows)%nat → (j < num_cols)%nat →
      (∀ b, b ∈ meas_phi → Rabs (cell_bearing x y theta i j - b) > beta / 2) →
      lookup2 m i j = Some p_unknown.
Proof.
  intros Hne Hlen HM HN.
  destruct (inverse_scanner_cells M N num_rows num_cols x y theta
              meas_phi meas_r rmax alpha beta Hne Hlen HM HN)
    as (m & Hm & _ & _ & Hin).
  exists m. split; [done|]. intros i j Hi Hj Hfov.
  destruct (Hin i j Hi Hj) as (k & rk & pk & _ & _ & Hpk & ->).
  rewrite classify_unknown; [done|]. right.
  apply Hfov. by eapply list_elem_of_lookup_2.
Qed.

Lemma inverse_scanner_outside_field_of_view_witness :
  ∃ m,
    inverse_scanner 10 10 10 10 5 0 (PI / 2) [0] [5] 10 1 (5 / 100) = Ok m ∧
    ∀ i j, (i < 10)%nat → (j < 10)%nat →
      (∀ b, b ∈ [0] → Rabs (cell_bearing 5 0 (PI / 2) i j - b) > 5 / 100 / 2) →
      lookup2 m i j = Some p_unknown.
Proof.
  apply (inverse_scanner_outside_field_of_view 10 10 10 10 5 0 (PI / 2)
           [0] [5] 10 1 (5 / 100)); [discriminate|simpl; lia|lia|lia].
Defined.

(** X12: the labels are sound.  A cell holds 0.7 only if its nearest beam
    read less than rmax, the cell is within alpha/2 of that reading, within
    rmax of the pose and within beta/2 of the beam; it holds 0.3 only if it
    is nearer than the reading, within rmax and within beta/2 of the
    beam. *)
Theorem inverse_scanner_labels_sound (M N num_rows num_cols : nat)
    (x y theta : R) (meas_phi meas_r : list R) (rmax alpha beta : R) :
  meas_phi ≠ [] → (length meas_phi <= length meas_r)%nat →
  (num_rows <= M)%nat → (num_cols <= N)%nat →
  ∃ m,
    inverse_scanner M N num_rows num_cols x y theta
      meas_phi meas_r rmax alpha beta = Ok m ∧
    ∀ i j, (i < num_rows)%nat → (j < num_cols)%nat →
      ∃ k rk pk,
        np_argmin ((λ b, Rabs (cell_bearing x y theta i j - b)) <$> meas_phi)
          = Ok k ∧
        meas_r !! k = Some rk ∧ meas_phi !! k = Some pk ∧
        let r := cell_range x y i j in
        let phi := cell_bearing x y theta i j in
        (lookup2 m i j = Some p_occupied →
           rk < rmax ∧ Rabs (r - rk) < alpha / 2 ∧ r <= rmax ∧
           Rabs (phi - pk) <= beta / 2) ∧
        (lookup2 m i j = Some p_free →
           r < rk ∧ r <= rmax ∧ Rabs (phi - pk) <= beta / 2).
Proof.
  intros Hne Hlen HM HN.
  destruct (inverse_scanner_cells M N num_rows num_cols x y theta
              meas_phi meas_r rmax alpha beta Hne Hlen HM HN)
    as (m & Hm & _ & _ & Hin).
  exists m. split; [done|]. intros i j Hi Hj.
  destruct (Hin i j Hi Hj) as (k & rk & pk & Hk & Hrk & Hpk & Hv).
  exists k, rk, pk. split; [done|]. split; [done|]. split; [done|].
  simpl. rewrite Hv. unfold classify.
  split; intros [= Hval]; revert Hval;
    repeat case_bool_decide; simpl; real_cases.
Qed.

Lemma inverse_scanner_labels_sound_witness :
  ∃ m,
    inverse_scanner 10 10 10 10 5 0 (PI / 2) [0] [5] 10 1 (5 / 100) = Ok m ∧
    ∀ i j, (i < 10)%nat → (j < 10)%nat →
      ∃ k rk pk,
        np_argmin ((λ b, Rabs (cell_bearing 5 0 (PI / 2) i j - b)) <$> [0])
          = Ok k ∧
        [5] !! k = Some rk ∧ [0] !! k = Some pk ∧
        let r := cell_range 5 0 i j in
        let phi := cell_bearing 5 0 (PI / 2) i j in
        (lookup2 m i j = Some p_occupied →
           rk < 10 ∧ Rabs (r - rk) < 1 / 2 ∧ r <= 10 ∧
           Rabs (phi - pk) <= 5 / 100 / 2) ∧
        (lookup2 m i j = Some p_free →
           r < rk ∧ r <= 10 ∧ Rabs (phi - pk) <= 5 / 100 / 2).
Proof.
  apply (inverse_scanner_labels_sound 10 10 10 10 5 0 (PI / 2)
           [0] [5] 10 1 (5 / 100)); [discriminate|simpl; lia|lia|lia].
Defined.

(** X13: called with bearings but without ranges, and with at least one
    cell to visit, [inverse_scanner] raises IndexError at [meas_r[k]]. *)
Theorem inverse_scanner_no_ranges (M N num_rows num_cols : nat)
    (x y theta : R) (meas_phi : list R) (rmax alpha beta : R) :
  meas_phi ≠ [] → (0 < num_rows)%nat → (0 < num_cols)%nat →
  inverse_scanner M N num_rows num_cols x y theta
    meas_phi [] rmax alpha beta = Raise IndexError.
Proof.
  intros Hne Hr Hc.
  destruct num_rows as [|nr]; [lia|]. destruct num_cols as [|nc]; [lia|].
  unfold inverse_scanner. simpl. unfold scan_row. simpl.
  unfold scan_cell, cell_decision.
  destruct (np_argmin_ok
    ((λ b, Rabs (cell_bearing x y theta 0 0 - b)) <$> meas_phi)) as [k Hk].
  { by destruct meas_phi. }
  rewrite Hk. simpl. rewrite (getitem_nat (@nil R) k). reflexivity.
Qed.

Lemma inverse_scanner_no_ranges_witness :
  inverse_scanner 10 10 10 10 5 0 (PI / 2) [0] [] 10 1 (5 / 100)
  = Raise IndexError.
Proof.
  apply (inverse_scanner_no_ranges 10 10 10 10 5 0 (PI / 2) [0] 10 1
           (5 / 100)); [discriminate|lia|lia].
Defined.

(** ** Log-odds fusion *)

Lemma lookup2_is_Some_lengths {A} (g : grid A) (i j : nat) :
  is_Some (lookup2 g i j) ↔
  ∃ n, row_lengths g !! i = Some n ∧ (j < n)%nat.
Proof.
  unfold lookup2, row_lengths. rewrite list_lookup_fmap.
  destruct (g !! i) as [row|]; simpl.
  - rewrite lookup_lt_is_Some. split.
    + intros Hj. by exists (length row).
    + by intros (n & [= <-] & Hj).
  - split; [by intros [? ?]|]. by intros (n & ? & _).
Qed.

Lemma lookup2_same_shape {A B} (g : grid A) (h : grid B) (i j : nat) :
  row_lengths g = row_lengths h →
  is_Some (lookup2 g i j) ↔ is_Some (lookup2 h i j).
Proof. intros H. by rewrite !lookup2_is_Some_lengths, H. Qed.

Lemma cell_log_odds_neutral (l : xreal) :
  cell_log_odds (Fin (5 / 10)) l (Fin 0) = l.
Proof.
  unfold cell_log_odds. rewrite prior_log_odds. unfold xsub.
  destruct l as [r| | |]; simpl; try done. f_equal. lra.
Qed.

(** X14: a measurement that is 0.5 at a cell carries no information: with
    a zero prior log-odds the update leaves the log-odds of that cell as it
    was, whatever it was. *)
Theorem log_odds_update_neutral (invmod L L0 : grid xreal) :
  row_lengths invmod = row_lengths L → row_lengths L = row_lengths L0 →
  ∃ L' m',
    log_odds_update invmod L L0 = Ok (L', m') ∧
    ∀ i j l,
      lookup2 invmod i j = Some (Fin (5 / 10)) →
      lookup2 L0 i j = Some (Fin 0) →
      lookup2 L i j = Some l →
      lookup2 L' i j = Some l.
Proof.
  intros H1 H2.
  destruct (log_odds_update_cells invmod L L0 H1 H2)
    as (L' & m' & Hrun & _ & _ & Hcells).
  exists L', m'. split; [done|]. intros i j l Hp Hl0 Hl.
  destruct (Hcells i j _ _ _ Hp Hl Hl0) as [HL _].
  by rewrite cell_log_odds_neutral in HL.
Qed.

Lemma log_odds_update_neutral_witness :
  ∃ L' m',
    log_odds_update [[Fin (5 / 10); Fin (7 / 10)]] [[Fin 2; NInf]]
      [[Fin 0; Fin 0]] = Ok (L', m') ∧
    ∀ i j l,
      lookup2 [[Fin (5 / 10); Fin (7 / 10)]] i j = Some (Fin (5 / 10)) →
      lookup2 [[Fin 0; Fin 0]] i j = Some (Fin 0) →
      lookup2 [[Fin 2; NInf]] i j = Some l →
      lookup2 L' i j = Some l.
Proof.
  apply (log_odds_update_neutral [[Fin (5 / 10); Fin (7 / 10)]]
           [[Fin 2; NInf]] [[Fin 0; Fin 0]]); reflexivity.
Defined.

Lemma xadd_swap_updates (a1 a2 l l0 : xreal) :
  xsub (xadd a2 (xsub (xadd a1 l) l0)) l0
  = xsub (xadd a1 (xsub (xadd a2 l) l0)) l0.
Proof.
  unfold xsub.
  destruct a1, a2, l, l0; simpl; try done; f_equal; lra.
Qed.

(** X15: the order of two measurements does not matter: fusing invmod1 and
    then invmod2 gives, at every cell, the same log-odds and the same
    belief as fusing invmod2 and then invmod1. *)
Theorem log_odds_update_commute (invmod1 invmod2 L L0 : grid xreal) :
  row_lengths invmod1 = row_lengths L →
  row_lengths invmod2 = row_lengths L →
  row_lengths L = row_lengths L0 →
  ∃ L1 m1 L12 m12 L2 m2 L21 m21,
    log_odds_update invmod1 L L0 = Ok (L1, m1) ∧
    log_odds_update invmod2 L1 L0 = Ok (L12, m12) ∧
    log_odds_update invmod2 L L0 = Ok (L2, m2) ∧
    log_odds_update invmod1 L2 L0 = Ok (L21, m21) ∧
    ∀ i j,
      lookup2 L12 i j = lookup2 L21 i j ∧
      lookup2 m12 i j = lookup2 m21 i j.
Proof.
  intros H1 H2 H0.
  destruct (log_odds_update_cells invmod1 L L0 H1 H0)
    as (L1 & m1 & Hr1 & Hs1 & _ & Hc1).
  destruct (log_odds_update_cells invmod2 L L0 H2 H0)
    as (L2 & m2 & Hr2 & Hs2 & _ & Hc2).
  destruct (log_odds_update_cells invmod2 L1 L0)
    as (L12 & m12 & Hr12 & Hs12 & Hsm12 & Hc12); [congruence..|].
  destruct (log_odds_update_cells invmod1 L2 L0)
    as (L21 & m21 & Hr21 & Hs21 & Hsm21 & Hc21); [congruence..|].
  exists L1, m1, L12, m12, L2, m2, L21, m21.
  repeat (split; [done|]). intros i j.
  destruct (lookup2 L i j) as [l|] eqn:Hl.
  - assert (Hsome : ∀ g : grid xreal,
      row_lengths g = row_lengths L → is_Some (lookup2 g i j)).
    { intros g Hg. apply (lookup2_same_shape g L i j Hg). by eexists. }
    destruct (Hsome invmod1 H1) as [p1 Hp1].
    destruct (Hsome invmod2 H2) as [p2 Hp2].
    destruct (Hsome L0 (eq_sym H0)) as [l0 Hl0].
    destruct (Hc1 i j _ _ _ Hp1 Hl Hl0) as [HL1 _].
    destruct (Hc2 i j _ _ _ Hp2 Hl Hl0) as [HL2 _].
    destruct (Hc12 i j _ _ _ Hp2 HL1 Hl0) as [HL12 Hm12].
    destruct (Hc21 i j _ _ _ Hp1 HL2 Hl0) as [HL21 Hm21].
    rewrite HL12, HL21, Hm12, Hm21.
    assert (Heq : cell_log_odds p2 (cell_log_odds p1 l l0) l0
                  = cell_log_odds p1 (cell_log_odds p2 l l0) l0)
      by apply xadd_swap_updates.
    by rewrite Heq.
  - assert (Hnone : ∀ g : grid xreal,
      row_lengths g = row_lengths L → lookup2 g i j = None).
    { intros g Hg. apply eq_None_not_Some.
      rewrite (lookup2_same_shape g L i j Hg), Hl. by intros [? ?]. }
    rewrite !Hnone by congruence. done.
Qed.

Lemma log_odds_update_commute_witness :
  ∃ L1 m1 L12 m12 L2 m2 L21 m21,
    log_odds_update [[Fin (7 / 10)]] [[Fin 0]] [[Fin 0]] = Ok (L1, m1) ∧
    log_odds_update [[Fin (3 / 10)]] L1 [[Fin 0]] = Ok (L12, m12) ∧
    log_odds_update [[Fin (3 / 10)]] [[Fin 0]] [[Fin 0]] = Ok (L2, m2) ∧
    log_odds_update [[Fin (7 / 10)]] L2 [[Fin 0]] = Ok (L21, m21) ∧
    ∀ i j,
      lookup2 L12 i j = lookup2 L21 i j ∧
      lookup2 m12 i j = lookup2 m21 i j.
Proof.
  apply (log_odds_update_commute [[Fin (7 / 10)]] [[Fin (3 / 10)]]
           [[Fin 0]] [[Fin 0]]); reflexivity.
Defined.

(** ** The fusion inside the loop *)

Lemma logistic_increasing (l l' : R) :
  l < l' → exp l / (1 + exp l) < exp l' / (1 + exp l').
Proof.
  intros Hl. pose proof (exp_pos l). pose proof (exp_pos l').
  pose proof (exp_increasing l l' Hl).
  assert (Ha : exp l / (1 + exp l) = 1 - / (1 + exp l)) by (field; lra).
  assert (Hb : exp l' / (1 + exp l') = 1 - / (1 + exp l')) by (field; lra).
  rewrite Ha, Hb.
  assert (/ (1 + exp l') < / (1 + exp l)); [|lra].
  apply Rinv_lt_contravar; [|lra]. apply Rmult_lt_0_compat; lra.
Qed.

Lemma logistic_monotone (l l' : R) :
  l <= l' → exp l / (1 + exp l) <= exp l' / (1 + exp l').
Proof.
  intros [Hl | ->]; [|lra]. left. by apply logistic_increasing.
Qed.

Lemma logistic_range (l : R) : 0 <= exp l / (1 + exp l) <= 1.
Proof.
  pose proof (exp_pos l).
  assert (Hq : exp l / (1 + exp l) * (1 + exp l) = exp l) by (field; lra).
  split; nra.
Qed.

Lemma fusion_inv_single (l : xreal) :
  low_or_finite l → fusion_inv 1 1 (SimState [[l]] [[cell_belief l]]).
Proof.
  intros Hl. split; [done|]. split; [done|]. simpl.
  intros [|i] [|j] l'; try done.
  by intros [= <-].
Qed.

(** X16: what one iteration does to a cell whose log-odds is finite: where
    the inverse model left 0 the log-odds becomes -inf and the belief 0;
    where it says 0.7 the log-odds rises strictly, where it says 0.3 it
    falls strictly, where it says 0.5 it stays; and as long as exp does not
    overflow at the old and the new log-odds, the belief of the cell moves
    in the same direction or stays. *)
Theorem sim_step_belief_direction (M N : nat) (true_map : grid R)
    (meas_phi : list R) (rmax : Z) (alpha beta : R)
    (st : sim_state) (X : R * R * R) :
  rectangular true_map → meas_phi ≠ [] → fusion_inv M N st →
  ∃ meas_r invmod st',
    get_ranges true_map X meas_phi rmax = Ok meas_r ∧
    inverse_scanner M N M N X.1.1 X.1.2 X.2
      meas_phi meas_r (IZR rmax) alpha beta = Ok invmod ∧
    sim_step M N true_map meas_phi rmax alpha beta st X = Ok st' ∧
    ∀ i j p l,
      lookup2 invmod i j = Some p →
      lookup2 (st_L st) i j = Some (Fin l) →
      (p = 0 →
       lookup2 (st_L st') i j = Some NInf ∧
       lookup2 (st_m st') i j = Some (Fin 0)) ∧
      (p ≠ 0 →
       ∃ l', lookup2 (st_L st') i j = Some (Fin l') ∧
         (p = p_occupied → l < l') ∧
         (p = p_free → l' < l) ∧
         (p = p_unknown → l' = l) ∧
         (exp l <= dbl_max → exp l' <= dbl_max →
          ∃ b b',
            lookup2 (st_m st) i j = Some (Fin b) ∧
            lookup2 (st_m st') i j = Some (Fin b') ∧
            (l <= l' → b <= b') ∧ (l' <= l → b' <= b))).
Proof.
  intros Hrect Hbeams Hinv.
  destruct (fusion_inv_log_odds M N st Hinv) as [HsL Hlow].
  destruct (sim_step_cells M N true_map meas_phi rmax alpha beta
              Hrect Hbeams st X HsL Hlow)
    as (mr & invmod & st' & Hscan & Himod & Hstep & _ & Hcells).
  exists mr, invmod, st'. repeat (split; [done|]).
  intros i j p l Hp Hl.
  destruct (Hcells i j p (Fin l) Hp Hl) as [HL' Hm'].
  split.
  { intros ->. rewrite cell_log_odds_zero in HL', Hm'.
    by rewrite cell_belief_ninf in Hm'. }
  intros Hp0.
  destruct (inverse_scanner_values _ _ _ _ _ _ _ _ _ _ _ _ _ i j p
              Himod Hp) as [-> | Hval]; [done|].
  destruct (cell_log_odds_label p l Hval) as (l' & Hl' & Hocc & Hfree & Hunk).
  rewrite Hl' in HL', Hm'. exists l'. split; [done|].
  pose proof logit_step_pos as Hc.
  split; [intros H; specialize (Hocc H); lra|].
  split; [intros H; specialize (Hfree H); lra|].
  split; [done|].
  intros Hexp Hexp'.
  destruct Hinv as (_ & _ & Hold). destruct (Hold i j _ Hl) as [_ Hm].
  rewrite cell_belief_finite in Hm, Hm' by done.
  eexists _, _. split; [exact Hm|]. split; [exact Hm'|].
  split; apply logistic_monotone.
Qed.

Lemma sim_step_belief_direction_witness :
  ∃ meas_r invmod st',
    get_ranges [[0]] (0, 0, 0) [0] 1 = Ok meas_r ∧
    inverse_scanner 1 1 1 1 0 0 0 [0] meas_r 1 1 1 = Ok invmod ∧
    sim_step 1 1 [[0]] [0] 1 1 1
      (SimState [[Fin 0]] [[cell_belief (Fin 0)]]) (0, 0, 0) = Ok st' ∧
    ∀ i j p l,
      lookup2 invmod i j = Some p →
      lookup2 [[Fin 0]] i j = Some (Fin l) →
      (p = 0 →
       lookup2 (st_L st') i j = Some NInf ∧
       lookup2 (st_m st') i j = Some (Fin 0)) ∧
      (p ≠ 0 →
       ∃ l', lookup2 (st_L st') i j = Some (Fin l') ∧
         (p = p_occupied → l < l') ∧
         (p = p_free → l' < l) ∧
         (p = p_unknown → l' = l) ∧
         (exp l <= dbl_max → exp l' <= dbl_max →
          ∃ b b',
            lookup2 [[cell_belief (Fin 0)]] i j = Some (Fin b) ∧
            lookup2 (st_m st') i j = Some (Fin b') ∧
            (l <= l' → b <= b') ∧ (l' <= l → b' <= b))).
Proof.
  apply (sim_step_belief_direction 1 1 [[0]] [0] 1 1 1
           (SimState [[Fin 0]] [[cell_belief (Fin 0)]]) (0, 0, 0)).
  - unfold rectangular. simpl. repeat constructor.
  - discriminate.
  - apply fusion_inv_single. exact I.
Defined.





(** X18: for up to 837 iterations the belief stays a probability: in the
    state reached after a sequence of at most 837 poses every belief cell
    is a real b with 0 <= b <= 1, not an infinity and not a NaN. *)
Theorem belief_stays_probability (M N : nat) (true_map : grid R)
    (meas_phi : list R) (rmax : Z) (alpha beta : R)
    (poses : list (R * R * R)) :
  rectangular true_map → meas_phi ≠ [] → (length poses <= 837)%nat →
  ∃ st,
    sim_run M N true_map meas_phi rmax alpha beta poses = Ok st ∧
    ∀ i j, (i < M)%nat → (j < N)%nat →
      ∃ b, lookup2 (st_m st) i j = Some (Fin b) ∧ 0 <= b <= 1.
Proof.
  intros Hrect Hbeams Hlen.
  destruct (sim_run_bounded M N true_map meas_phi rmax alpha beta poses
              Hrect Hbeams) as (st & Hrun & (HsL & Hsm & Hcells) & Hb).
  exists st. split; [done|]. intros i j Hi Hj.
  destruct (proj2 (lookup2_is_Some (st_L st) M N i j HsL) (conj Hi Hj))
    as [l Hl].
  destruct (Hcells i j l Hl) as [Hlow Hm].
  destruct l as [r| | |]; try done.
  - destruct (exp_steps_no_overflow (length poses) r Hlen (Hb i j r Hl))
      as [Hexp _].
    rewrite cell_belief_finite in Hm by done.
    eexists. split; [exact Hm|]. apply logistic_range.
  - rewrite cell_belief_ninf in Hm. exists 0. split; [done|]. lra.
Qed.

Lemma belief_stays_probability_witness :
  ∃ st,
    sim_run 10 10 obstacle_map [0] 10 1 (5 / 100)
      [(5, 0, PI / 2); (5, 2, PI / 2)] = Ok st ∧
    ∀ i j, (i < 10)%nat → (j < 10)%nat →
      ∃ b, lookup2 (st_m st) i j = Some (Fin b) ∧ 0 <= b <= 1.
Proof.
  apply (belief_stays_probability 10 10 obstacle_map [0] 10 1 (5 / 100)
           [(5, 0, PI / 2); (5, 2, PI / 2)]).
  - apply obstacle_map_rectangular.
  - discriminate.
  - simpl. lia.
Defined.

(** X19: a stationary sensor: after n iterations at one pose the log-odds
    of every cell where the inverse model holds p in {0.3, 0.5, 0.7} is
    l = n * ln (p / (1 - p)); its belief is exp l / (1 + exp l) as long as
    exp l does not exceed the largest double and NaN above, which for a
    cell held at 0.7 is the case from the 838th iteration on. *)
Theorem stationary_log_odds (M N : nat) (true_map : grid R)
    (meas_phi : list R) (rmax : Z) (alpha beta : R) (X : R * R * R) :
  rectangular true_map → meas_phi ≠ [] →
  ∃ meas_r invmod,
    get_ranges true_map X meas_phi rmax = Ok meas_r ∧
    inverse_scanner M N M N X.1.1 X.1.2 X.2
      meas_phi meas_r (IZR rmax) alpha beta = Ok invmod ∧
    ∀ n, ∃ st,
      sim_run M N true_map meas_phi rmax alpha beta (replicate n X) = Ok st ∧
      ∀ i j p, lookup2 invmod i j = Some p → p ≠ 0 →
        let l := INR n * ln (p / (1 - p)) in
        lookup2 (st_L st) i j = Some (Fin l) ∧
        (exp l <= dbl_max →
         lookup2 (st_m st) i j = Some (Fin (exp l / (1 + exp l)))) ∧
        (dbl_max < exp l → lookup2 (st_m st) i j = Some NaN) ∧
        (p = p_occupied → (838 <= n)%nat →
         lookup2 (st_m st) i j = Some NaN).
Proof.
  intros Hrect Hbeams.
  pose proof (get_ranges_spec true_map X meas_phi rmax Hrect) as Hscan.
  destruct (inverse_scanner_ok M N M N X.1.1 X.1.2 X.2 meas_phi
    (beam_range true_map X rmax <$> meas_phi) (IZR rmax) alpha beta)
    as [invmod Himod]; [done|by rewrite length_fmap|lia|lia|].
  eexists _, invmod. split; [exact Hscan|]. split; [exact Himod|].
  intros n.
  destruct (stationary_run M N true_map meas_phi rmax alpha beta X _ invmod n
              Hrect Hbeams Hscan Himod) as (st & Hrun & Hinv & HL).
  exists st. split; [done|]. intros i j p Hp Hp0 l.
  specialize (HL i j p Hp Hp0). split; [done|].
  destruct Hinv as (_ & _ & Hcells).
  destruct (Hcells i j _ HL) as [_ Hm]. fold l in Hm.
  split; [|split].
  - intros Hexp. by rewrite cell_belief_finite in Hm.
  - intros Hexp. by rewrite cell_belief_overflow in Hm.
  - intros -> Hn. rewrite cell_belief_overflow in Hm; [done|].
    unfold l. rewrite logit_occupied. by apply exp_steps_overflow.
Qed.

Lemma stationary_log_odds_witness :
  ∃ meas_r invmod,
    get_ranges obstacle_map (5, 0, PI / 2) [0] 10 = Ok meas_r ∧
    inverse_scanner 10 10 10 10 5 0 (PI / 2) [0] meas_r 10 1 (5 / 100)
      = Ok invmod ∧
    ∀ n, ∃ st,
      sim_run 10 10 obstacle_map [0] 10 1 (5 / 100)
        (replicate n (5, 0, PI / 2)) = Ok st ∧
      ∀ i j p, lookup2 invmod i j = Some p → p ≠ 0 →
        let l := INR n * ln (p / (1 - p)) in
        lookup2 (st_L st) i j = Some (Fin l) ∧
        (exp l <= dbl_max →
         lookup2 (st_m st) i j = Some (Fin (exp l / (1 + exp l)))) ∧
        (dbl_max < exp l → lookup2 (st_m st) i j = Some NaN) ∧
        (p = p_occupied → (838 <= n)%nat →
         lookup2 (st_m st) i j = Some NaN).
Proof.
  apply (stationary_log_odds 10 10 obstacle_map [0] 10 1 (5 / 100)
           (5, 0, PI / 2)).
  - apply obstacle_map_rectangular.
  - discriminate.
Defined.

(** ** The motion of the robot *)

Lemma py_round_bounds (v : R) (a b : Z) :
  IZR a <= v <= IZR b → (a <= py_round v <= b)%Z.
Proof.
  intros [Ha Hb]. pose proof (Zfloor_bound v) as [Hf1 Hf2].
  pose proof (Zfloor_lub a v Ha) as Hlub.
  assert (Hfb : (Zfloor v <= b)%Z) by (apply le_IZR; lra).
  unfold py_round.
  destruct (decide (v - IZR (Zfloor v) < 1 / 2)) as [|Hhalf]; [lia|].
  assert (Hlt : (Zfloor v < b)%Z) by (apply lt_IZR; lra).
  repeat case_decide; try case_match; lia.
Qed.

Lemma rectangular_of_row_lengths {A} (g : grid A) (M N : nat) :
  row_lengths g = replicate M N → rectangular g.
Proof.
  unfold rectangular, row_lengths, np_shape. intros H.
  apply Forall_forall. intros row Hrow. simpl.
  assert (Hall : ∀ r, r ∈ g → length r = N).
  { intros r Hr. apply list_elem_of_lookup in Hr as [i Hi].
    assert (Hl : (length <$> g) !! i = Some (length r))
      by by rewrite list_lookup_fmap, Hi.
    rewrite H in Hl. apply lookup_replicate in Hl. tauto. }
  rewrite (Hall row Hrow).
  destruct g as [|r0 g]; [by apply elem_of_nil in Hrow|].
  simpl. symmetry. apply Hall. by left.
Qed.

Lemma getitem2_in_grid {A} (g : grid A) (M N : nat) (zi zj : Z) :
  row_lengths g = replicate M N →
  (0 <= zi < Z.of_nat M)%Z → (0 <= zj < Z.of_nat N)%Z →
  ∃ v, getitem2 g zi zj = Ok v ∧
       lookup2 g (Z.to_nat zi) (Z.to_nat zj) = Some v.
Proof.
  intros Hs Hi Hj.
  destruct (proj2 (lookup2_is_Some g M N (Z.to_nat zi) (Z.to_nat zj) Hs))
    as [v Hv]; [lia|].
  exists v. split; [|done]. unfold getitem2, lookup2 in *.
  rewrite getitem_nonneg by lia.
  destruct (g !! Z.to_nat zi) as [row|]; [|done]. simpl in *.
  rewrite getitem_nonneg by lia. by rewrite Hv.
Qed.

(** The four moves: three cells along one axis. *)
Lemma u_moves_column (u_i : Z) :
  (0 <= u_i < 4)%Z →
  ∃ dx dy,
    getitem2 u_moves 0 u_i = Ok dx ∧ getitem2 u_moves 1 u_i = Ok dy ∧
    ((u_i = 0%Z ∧ dx = 3 ∧ dy = 0) ∨ (u_i = 1%Z ∧ dx = 0 ∧ dy = 3) ∨
     (u_i = 2%Z ∧ dx = -3 ∧ dy = 0) ∨ (u_i = 3%Z ∧ dx = 0 ∧ dy = -3)).
Proof.
  intros Hu.
  assert (Hcases : (u_i = 0 ∨ u_i = 1 ∨ u_i = 2 ∨ u_i = 3)%Z) by lia.
  destruct Hcases as [-> | [-> | [-> | ->] ] ];
    eexists _, _; (split; [reflexivity|]); (split; [reflexivity|]); tauto.
Qed.

Section motion_facts.
Variables M N : nat.
Variable true_map : grid R.

Hypothesis Hshape : row_lengths true_map = replicate M N.

(** The test of the motion reads the map inside the array only; when it
    lets the robot move, the target is strictly inside the map and its cell
    is not an obstacle. *)
Lemma move_blocked_ok (mx my : R) :
  ∃ blocked,
    move_blocked M N true_map mx my = Ok blocked ∧
    (blocked = false →
       0 < mx < INR M - 1 ∧ 0 < my < INR N - 1 ∧
       cell_at true_map (py_round mx, py_round my) ≠ Some 1).
Proof.
  unfold move_blocked.
  destruct (bool_decide (mx >= INR M - 1)) eqn:E1; simpl;
    [by eexists|].
  destruct (bool_decide (my >= INR N - 1)) eqn:E2; simpl;
    [by eexists|].
  destruct (bool_decide (mx <= 0)) eqn:E3; simpl; [by eexists|].
  destruct (bool_decide (my <= 0)) eqn:E4; simpl; [by eexists|].
  apply bool_decide_eq_false in E1, E2, E3, E4.
  assert (HM : INR M - 1 = IZR (Z.of_nat M - 1))
    by (rewrite minus_IZR, <- INR_IZR_INZ; lra).
  assert (HN : INR N - 1 = IZR (Z.of_nat N - 1))
    by (rewrite minus_IZR, <- INR_IZR_INZ; lra).
  pose proof (py_round_bounds mx 0 (Z.of_nat M - 1)) as Hx.
  rewrite <- HM in Hx. specialize (Hx ltac:(lra)).
  pose proof (py_round_bounds my 0 (Z.of_nat N - 1)) as Hy.
  rewrite <- HN in Hy. specialize (Hy ltac:(lra)).
  destruct (getitem2_in_grid true_map M N (py_round mx) (py_round my) Hshape)
    as (v & Hget & Hv); [lia|lia|].
  rewrite Hget. simpl. eexists. split; [done|].
  intros Hb. apply bool_decide_eq_false in Hb.
  split; [lra|]. split; [lra|].
  unfold cell_at. simpl. rewrite Hv. by intros [= ->].
Qed.

(** X20: on a map of shape (M, N) and with u_i in 0..3 the motion raises
    no exception; the new u_i is again in 0..3 and the new heading lies in
    [0, 2 PI). *)
Theorem move_robot_safe (X : R * R * R) (u_i : Z) (wt : R) :
  (0 <= u_i < 4)%Z →
  ∃ X' u_i',
    move_robot M N true_map X u_i wt = Ok (X', u_i') ∧
    (0 <= u_i' < 4)%Z ∧
    0 <= X'.2 < 2 * PI.
Proof.
  intros Hu. unfold move_robot.
  destruct (u_moves_column u_i Hu) as (dx & dy & -> & -> & _). simpl.
  destruct (move_blocked_ok (X.1.1 + dx) (X.1.2 + dy)) as (b & -> & _).
  simpl. pose proof PI_RGT_0.
  destruct b; eexists _, _; (split; [done|]); simpl;
    (split; [|apply py_mod_range; lra]).
  - apply Z.mod_pos_bound. lia.
  - done.
Qed.

(** X21: the robot either keeps its position and passes to the next move
    of the cycle, or keeps its move and advances by exactly three cells
    along one axis, the other coordinate unchanged (move 0: x + 3, move 1:
    y + 3, move 2: x - 3, move 3: y - 3), to a position strictly inside the
    map whose cell is not an obstacle. *)
Theorem move_robot_step (X : R * R * R) (u_i : Z) (wt : R) :
  (0 <= u_i < 4)%Z →
  ∃ X' u_i',
    move_robot M N true_map X u_i wt = Ok (X', u_i') ∧
    ((X'.1 = X.1 ∧ u_i' = ((u_i + 1) `mod` 4)%Z) ∨
     (u_i' = u_i ∧ inside M N X' ∧
      cell_at true_map (py_round X'.1.1, py_round X'.1.2) ≠ Some 1 ∧
      ((u_i = 0%Z ∧ X'.1.1 = X.1.1 + 3 ∧ X'.1.2 = X.1.2) ∨
       (u_i = 1%Z ∧ X'.1.1 = X.1.1 ∧ X'.1.2 = X.1.2 + 3) ∨
       (u_i = 2%Z ∧ X'.1.1 = X.1.1 - 3 ∧ X'.1.2 = X.1.2) ∨
       (u_i = 3%Z ∧ X'.1.1 = X.1.1 ∧ X'.1.2 = X.1.2 - 3)))).
Proof.
  intros Hu. unfold move_robot.
  destruct (u_moves_column u_i Hu) as (dx & dy & -> & -> & Hd). simpl.
  destruct (move_blocked_ok (X.1.1 + dx) (X.1.2 + dy)) as (b & -> & Hb).
  simpl. destruct b; eexists _, _; (split; [done|]); simpl.
  - left. split; [|done]. by destruct X as [[x y] theta].
  - right. destruct (Hb eq_refl) as (Hx & Hy & Hcell).
    split; [done|]. split; [by split|]. split; [done|].
    destruct Hd as [(-> & -> & ->) | [(-> & -> & ->) |
                   [(-> & -> & ->) | (-> & -> & ->)] ] ].
    + left. split; [done|]. split; lra.
    + right. left. split; [done|]. split; lra.
    + do 2 right. left. split; [done|]. split; lra.
    + do 3 right. split; [done|]. split; lra.
Qed.

(** X22: the robot never leaves the map: from a position strictly inside,
    the motion leads to a position strictly inside. *)
Theorem move_robot_stays_inside (X : R * R * R) (u_i : Z) (wt : R) :
  (0 <= u_i < 4)%Z → inside M N X →
  ∃ X' u_i',
    move_robot M N true_map X u_i wt = Ok (X', u_i') ∧ inside M N X'.
Proof.
  intros Hu Hin. unfold move_robot.
  destruct (u_moves_column u_i Hu) as (dx & dy & -> & -> & _). simpl.
  destruct (move_blocked_ok (X.1.1 + dx) (X.1.2 + dy)) as (b & -> & Hb).
  simpl. destruct b; eexists _, _; (split; [done|]).
  - exact Hin.
  - destruct (Hb eq_refl) as (Hx & Hy & _). by split.
Qed.
End motion_facts.

Lemma move_robot_safe_witness :
  ∃ X' u_i',
    move_robot 10 10 free_map (5, 2, PI / 2) 1 (3 / 10) = Ok (X', u_i') ∧
    (0 <= u_i' < 4)%Z ∧
    0 <= X'.2 < 2 * PI.
Proof.
  apply (move_robot_safe 10 10 free_map); [reflexivity|lia].
Defined.

Lemma move_robot_step_witness :
  ∃ X' u_i',
    move_robot 10 10 obstacle_map (5, 2, PI / 2) 1 (3 / 10) = Ok (X', u_i') ∧
    ((X'.1 = (5, 2, PI / 2).1 ∧ u_i' = ((1 + 1) `mod` 4)%Z) ∨
     (u_i' = 1%Z ∧ inside 10 10 X' ∧
      cell_at obstacle_map (py_round X'.1.1, py_round X'.1.2) ≠ Some 1 ∧
      ((1%Z = 0%Z ∧ X'.1.1 = (5, 2, PI / 2).1.1 + 3
        ∧ X'.1.2 = (5, 2, PI / 2).1.2) ∨
       (1%Z = 1%Z ∧ X'.1.1 = (5, 2, PI / 2).1.1
        ∧ X'.1.2 = (5, 2, PI / 2).1.2 + 3) ∨
       (1%Z = 2%Z ∧ X'.1.1 = (5, 2, PI / 2).1.1 - 3
        ∧ X'.1.2 = (5, 2, PI / 2).1.2) ∨
       (1%Z = 3%Z ∧ X'.1.1 = (5, 2, PI / 2).1.1
        ∧ X'.1.2 = (5, 2, PI / 2).1.2 - 3)))).
Proof.
  apply (move_robot_step 10 10 obstacle_map); [reflexivity|lia].
Defined.

Lemma move_robot_stays_inside_witness :
  ∃ X' u_i',
    move_robot 10 10 free_map (5, 2, PI / 2) 1 (3 / 10) = Ok (X', u_i') ∧
    inside 10 10 X'.
Proof.
  apply (move_robot_stays_inside 10 10 free_map); [reflexivity|lia|].
  unfold inside. simpl. lra.
Defined.

(** ** The main loop *)

Lemma py_range_split_inv (lo hi : Z) (done : list Z) (a : Z) (rest : list Z) :
  py_range lo hi = done ++ a :: rest →
  a = (lo + Z.of_nat (length done))%Z ∧ (a < hi)%Z.
Proof.
  intros H.
  assert (Ha : py_range lo hi !! length done = Some a).
  { rewrite H. by rewrite list_lookup_middle. }
  unfold py_range in Ha. rewrite list_lookup_fmap in Ha.
  destruct (seq 0 (Z.to_nat (hi - lo)) !! length done) as [k|] eqn:Hk;
    [|done].
  apply lookup_seq in Hk as [-> Hlt]. simpl in Ha. injection Ha as <-.
  lia.
Qed.

Lemma length_py_range (lo hi : Z) :
  length (py_range lo hi) = Z.to_nat (hi - lo).
Proof. unfold py_range. by rewrite length_fmap, length_seq. Qed.

Section main_loop_facts.
Variables M N : nat.
Variable true_map : grid R.
Variable meas_phi : list R.
Variable rmax : Z.
Variables alpha beta : R.
Variable x_0 : R * R * R.
Variable w : list R.

Hypothesis Hshape : row_lengths true_map = replicate M N.
Hypothesis Hbeams : meas_phi ≠ [].

#[local] Abbreviation loop_inv :=
  (loop_inv M N true_map meas_phi rmax alpha beta x_0).

Lemma loop_body_inv (k : nat) (st : loop_state) :
  (Z.of_nat k + 1 < Z.of_nat (length w))%Z →
  loop_inv k st →
  ∃ st',
    loop_body M N true_map meas_phi rmax alpha beta w st (1 + Z.of_nat k)
      = Ok st' ∧
    loop_inv (S k) st'.
Proof.
  intros Hk (Hx & Hmr & Him & Hms & Hui & Hinv & Hin & Hrun & Hlast).
  pose proof (rectangular_of_row_lengths true_map M N Hshape) as Hrect.
  unfold loop_body.
  rewrite (getitem_nonneg (ls_x st)) by lia.
  replace (Z.to_nat (1 + Z.of_nat k - 1)) with k by lia.
  destruct (lookup_lt_is_Some_2 (ls_x st) k) as [X HX]; [lia|].
  rewrite HX. simpl.
  rewrite (getitem_nonneg w) by lia.
  destruct (lookup_lt_is_Some_2 w (Z.to_nat (1 + Z.of_nat k))) as [wt Hwt];
    [lia|].
  rewrite Hwt. simpl.
  destruct (move_robot_safe M N true_map Hshape X (ls_ui st) wt Hui)
    as (X' & ui' & Hmove & Hui' & _).
  rewrite Hmove. simpl.
  destruct (fusion_inv_log_odds M N (ls_sim st) Hinv) as [HsL Hlow].
  destruct (sim_step_cells M N true_map meas_phi rmax alpha beta
              Hrect Hbeams (ls_sim st) X' HsL Hlow)
    as (mr & invmod & st' & Hscan & Himod & Hstep & Hinv' & _).
  rewrite Hscan. simpl. rewrite Himod. simpl.
  unfold sim_step in Hstep. rewrite Hscan in Hstep. simpl in Hstep.
  rewrite Himod in Hstep. simpl in Hstep.
  destruct (L0 M N) as [l0|e] eqn:Hl0; [|done]. simpl in Hstep |- *.
  destruct (log_odds_update (ew1 Fin invmod) (st_L (ls_sim st)) l0)
    as [[L' m']|e] eqn:Hupd; [|done].
  simpl in Hstep |- *. injection Hstep as <-.
  eexists. split; [done|]. unfold loop_inv. simpl.
  rewrite !length_app. simpl.
  do 4 (split; [lia|]). split; [done|]. split; [exact Hinv'|].
  split; [|split].
  - intros Hx0. apply Forall_app. split; [by apply Hin|].
    apply Forall_singleton.
    assert (HXin : inside M N X).
    { specialize (Hin Hx0). rewrite Forall_forall in Hin. apply Hin.
      by eapply list_elem_of_lookup_2. }
    destruct (move_robot_stays_inside M N true_map Hshape X (ls_ui st) wt
                Hui HXin) as (X2 & u2 & Hmove2 & Hin2).
    rewrite Hmove in Hmove2. by injection Hmove2 as <- <-.
  - destruct (ls_x st) as [|x1 xs]; [done|]. simpl in *.
    rewrite sim_run_snoc, Hrun. simpl.
    unfold sim_step. rewrite Hscan. simpl. rewrite Himod. simpl.
    rewrite Hl0. simpl. by rewrite Hupd.
  - by rewrite last_snoc.
Qed.
End main_loop_facts.

(** [x = np.zeros((3, len(time_steps)))] and [x[:, 0] = x_0]: with at
    least one time step the first column is [x_0]; with none the assignment
    raises IndexError. *)
Lemma first_column (x_0 : R * R * R) (w : list R) :
  w ≠ [] →
  ∃ x,
    setitem (replicate (length w) (0, 0, 0)) 0 x_0 = Ok x ∧ take 1 x = [x_0].
Proof.
  destruct w as [|a w]; [done|]. intros _.
  change 0%Z with (Z.of_nat 0). rewrite setitem_nat.
  rewrite decide_True by (rewrite length_replicate; simpl; lia).
  by eexists.
Qed.

Lemma main_loop_no_time_step (M N : nat) (true_map : grid R)
    (meas_phi : list R) (rmax : Z) (alpha beta : R) (x_0 : R * R * R) :
  main_loop M N true_map meas_phi rmax alpha beta x_0 [] = Raise IndexError.
Proof.
  unfold main_loop. destruct (L0_ok M N) as (l0 & -> & _). reflexivity.
Qed.

Lemma main_loop_inv (M N : nat) (true_map : grid R) (meas_phi : list R)
    (rmax : Z) (alpha beta : R) (x_0 : R * R * R) (w : list R) :
  row_lengths true_map = replicate M N → meas_phi ≠ [] → w ≠ [] →
  ∃ st,
    main_loop M N true_map meas_phi rmax alpha beta x_0 w = Ok st ∧
    loop_inv M N true_map meas_phi rmax alpha beta x_0
      (length (py_range 1 (Z.of_nat (length w)))) st.
Proof.
  intros Hshape Hbeams Hw.
  pose proof (rectangular_of_row_lengths true_map M N Hshape) as Hrect.
  unfold main_loop.
  destruct (sim_init_ok M N) as (st0 & Hinit & Hinv0 & _).
  unfold sim_init in Hinit.
  destruct (L0 M N) as [l0|e] eqn:Hl0; [|done]. simpl in Hinit |- *.
  injection Hinit as <-.
  destruct (first_column x_0 w Hw) as (x & Hset & Htake).
  rewrite Hset. simpl. rewrite Htake.
  rewrite (get_ranges_spec true_map x_0 meas_phi rmax Hrect). simpl.
  destruct (inverse_scanner_ok M N M N x_0.1.1 x_0.1.2 x_0.2 meas_phi
    (beam_range true_map x_0 rmax <$> meas_phi) (IZR rmax) alpha beta)
    as [invmod Himod]; [done|by rewrite length_fmap|lia|lia|].
  rewrite Himod. simpl.
  apply (for_each_ok _
    (λ done st, loop_inv M N true_map meas_phi rmax alpha beta x_0
                  (length done) st)).
  - unfold loop_inv. simpl. do 4 (split; [done|]). split; [lia|].
    split; [done|]. split; [|split; [|done] ].
    + intros Hx0. by apply Forall_singleton.
    + unfold sim_run, sim_init. by rewrite Hl0.
  - intros done t rest st Hsplit Hst.
    apply py_range_split_inv in Hsplit as [-> Hlt].
    destruct (loop_body_inv M N true_map meas_phi rmax alpha beta x_0 w
                Hshape Hbeams (length done) st) as (st' & Hbody & Hst');
      [lia|done|].
    exists st'. split; [done|].
    rewrite length_app. simpl. by rewrite Nat.add_1_r.
Qed.

(** X23: on a map of shape (M, N), with at least one bearing and at least
    one time step, the whole notebook loop runs without an exception,
    whatever the initial pose and the rotation commands; the path and the
    three archives end with one entry per time step, and a robot that starts
    strictly inside the map is strictly inside it at every time step. *)
Theorem main_loop_runs (M N : nat) (true_map : grid R) (meas_phi : list R)
    (rmax : Z) (alpha beta : R) (x_0 : R * R * R) (w : list R) :
  row_lengths true_map = replicate M N → meas_phi ≠ [] → w ≠ [] →
  ∃ st,
    main_loop M N true_map meas_phi rmax alpha beta x_0 w = Ok st ∧
    length (ls_x st) = length w ∧
    length (ls_meas_rs st) = length w ∧
    length (ls_invmods st) = length w ∧
    length (ls_ms st) = length w ∧
    (inside M N x_0 → Forall (inside M N) (ls_x st)).
Proof.
  intros Hshape Hbeams Hw.
  destruct (main_loop_inv M N true_map meas_phi rmax alpha beta x_0 w
              Hshape Hbeams Hw)
    as (st & Hrun & Hx & Hmr & Him & Hms & _ & _ & Hin & _).
  rewrite length_py_range in Hx, Hmr, Him, Hms.
  assert (Hlen : (0 < length w)%nat) by (destruct w; [done|simpl; lia]).
  exists st. split; [done|]. repeat split; try lia. done.
Qed.

Lemma main_loop_runs_witness :
  ∃ st,
    main_loop 10 10 free_map [0] 3 1 (5 / 100) (5, 2, PI / 2)
      [3 / 10; 3 / 10; 3 / 10] = Ok st ∧
    length (ls_x st) = length [3 / 10; 3 / 10; 3 / 10] ∧
    length (ls_meas_rs st) = length [3 / 10; 3 / 10; 3 / 10] ∧
    length (ls_invmods st) = length [3 / 10; 3 / 10; 3 / 10] ∧
    length (ls_ms st) = length [3 / 10; 3 / 10; 3 / 10] ∧
    (inside 10 10 (5, 2, PI / 2) → Forall (inside 10 10) (ls_x st)).
Proof.
  apply (main_loop_runs 10 10 free_map [0] 3 1 (5 / 100) (5, 2, PI / 2)
           [3 / 10; 3 / 10; 3 / 10]); [reflexivity|discriminate..].
Defined.

(** X24: with at least one time step, the grids at the end of the loop are
    those the fusion alone computes from the poses the robot visited after
    the first, and the last archived belief is the current belief. *)
Theorem main_loop_fuses_visited_poses (M N : nat) (true_map : grid R)
    (meas_phi : list R) (rmax : Z) (alpha beta : R)
    (x_0 : R * R * R) (w : list R) :
  row_lengths true_map = replicate M N → meas_phi ≠ [] → w ≠ [] →
  ∃ st,
    main_loop M N true_map meas_phi rmax alpha beta x_0 w = Ok st ∧
    sim_run M N true_map meas_phi rmax alpha beta (tail (ls_x st))
      = Ok (ls_sim st) ∧
    last (ls_ms st) = Some (st_m (ls_sim st)).
Proof.
  intros Hshape Hbeams Hw.
  destruct (main_loop_inv M N true_map meas_phi rmax alpha beta x_0 w
              Hshape Hbeams Hw)
    as (st & Hrun & _ & _ & _ & _ & _ & _ & _ & Hsim & Hlast).
  by exists st.
Qed.

Lemma main_loop_fuses_visited_poses_witness :
  ∃ st,
    main_loop 10 10 free_map [0] 3 1 (5 / 100) (5, 2, PI / 2)
      [3 / 10; 3 / 10; 3 / 10] = Ok st ∧
    sim_run 10 10 free_map [0] 3 1 (5 / 100) (tail (ls_x st))
      = Ok (ls_sim st) ∧
    last (ls_ms st) = Some (st_m (ls_sim st)).
Proof.
  apply (main_loop_fuses_visited_poses 10 10 free_map [0] 3 1 (5 / 100)
           (5, 2, PI / 2) [3 / 10; 3 / 10; 3 / 10]);
    [reflexivity|discriminate..].
Defined.

(** ** The construction of the map *)

(** A slice assignment keeps the shape of the array, gives the value to
    the cells of the block that exist and leaves every other cell as it
    was. *)
Lemma assign_block_cells {A} (r0 r1 c0 c1 : nat) (v : A) (g : grid A) :
  row_lengths (assign_block r0 r1 c0 c1 v g) = row_lengths g ∧
  ∀ i j,
    lookup2 (assign_block r0 r1 c0 c1 v g) i j =
      if decide ((r0 <= i < r1)%nat ∧ (c0 <= j < c1)%nat)
      then (λ _, v) <$> lookup2 g i j
      else lookup2 g i j.
Proof.
  split.
  - unfold row_lengths, assign_block. apply list_eq. intros i.
    rewrite !list_lookup_fmap, list_lookup_imap.
    destruct (g !! i) as [row|]; simpl; [|done].
    case_decide; [|done]. by rewrite length_imap.
  - intros i j. unfold lookup2, assign_block. rewrite list_lookup_imap.
    destruct (g !! i) as [row|]; simpl; [|by case_decide].
    destruct (decide (r0 <= i < r1)%nat) as [Hi|Hi].
    + rewrite list_lookup_imap.
      destruct (row !! j) as [a|]; simpl; [|by case_decide].
      destruct (decide (c0 <= j < c1)%nat) as [Hj|Hj].
      * by rewrite decide_True.
      * by rewrite decide_False by tauto.
    + by rewrite decide_False by tauto.
Qed.

Lemma notebook_map_shape : row_lengths notebook_map = replicate 50%nat 60%nat.
Proof.
  unfold notebook_map.
  rewrite !(proj1 (assign_block_cells _ _ _ _ _ _)).
  apply row_lengths_full.
Qed.

(** X26: the notebook as it is set up: on its 50 by 60 map, from the pose
    (30, 30, 0) and with 150 time steps, the loop runs to its end without
    an exception for every non-empty set of bearings and all sensor
    parameters, and the robot is strictly inside the map at each of the 150
    time steps. *)
Theorem notebook_run (meas_phi : list R) (rmax : Z) (alpha beta : R) :
  meas_phi ≠ [] →
  ∃ st,
    main_loop 50 60 notebook_map meas_phi rmax alpha beta (30, 30, 0)
      (replicate 150 (3 / 10)) = Ok st ∧
    length (ls_x st) = 150%nat ∧
    length (ls_ms st) = 150%nat ∧
    Forall (inside 50 60) (ls_x st).
Proof.
  intros Hbeams.
  assert (Hw : replicate 150 (3 / 10) ≠ []) by discriminate.
  destruct (main_loop_inv 50 60 notebook_map meas_phi rmax alpha beta
              (30, 30, 0) (replicate 150 (3 / 10))
              notebook_map_shape Hbeams Hw)
    as (st & Hrun & Hx & _ & _ & Hms & _ & _ & Hin & _).
  rewrite length_py_range, length_replicate in Hx, Hms.
  exists st. split; [done|]. split; [exact Hx|]. split; [exact Hms|].
  apply Hin. unfold inside. simpl. lra.
Qed.

Lemma notebook_run_witness :
  ∃ st,
    main_loop 50 60 notebook_map [0] 30 1 (5 / 100) (30, 30, 0)
      (replicate 150 (3 / 10)) = Ok st ∧
    length (ls_x st) = 150%nat ∧
    length (ls_ms st) = 150%nat ∧
    Forall (inside 50 60) (ls_x st).
Proof. apply (notebook_run [0] 30 1 (5 / 100)). discriminate. Defined.
